(** * SecureChat: the room relay, the symmetric channel and the call negotiator

    A shallow embedding of
    - the WebSocket relay of [server.js] (class [Group], the [message] and
      [close] handlers),
    - [client/features/crypto.js] ([CryptoManager]),
    - [client/features/voice.js] ([VoiceManager]) and
    - the message dispatch of [client/main.js] ([SecureChatApp]),
    with the properties of the specification stated over it. *)

From stdpp Require Import gmap strings list fin_maps.
From Stdlib Require Import ZArith Lia.

Local Open Scope string_scope.
Local Open Scope list_scope.

(** ** The room relay (server.js) *)

Module Relay.

(** A connection is the identity of a [ws] object, a group object is
    addressed by its position in the store of allocated [Group]s: the map
    [groups] and the closure variable [userGroup] of every connection hold
    references to the same objects. *)
Abbreviation conn := nat (only parsing).
Abbreviation addr := nat (only parsing).

(** JavaScript's [Set], in insertion order. *)
Definition set_add (x : conn) (s : list conn) : list conn :=
  if decide (x ∈ s) then s else s ++ [x].

Definition set_delete (x : conn) (s : list conn) : list conn :=
  filter (λ y, y ≠ x) s.

Record Group := mkGroup { id : string; members : list conn }.

Definition add (ws : conn) (g : Group) : Group :=
  mkGroup (id g) (set_add ws (members g)).

Definition remove (ws : conn) (g : Group) : Group :=
  mkGroup (id g) (set_delete ws (members g)).

(** What the relay writes to a socket: the object handed to
    [JSON.stringify]. *)
Inductive outmsg :=
| error (message : string)
| group_created (groupId : string)
| joined_group (groupId : string)
| left_group (groupId : string)
| chat_message (content sender : string) (timestamp : Z)
| call_allowed (callType : string)
| encrypted_signaling (data : string).

#[global] Instance outmsg_eq_dec : EqDecision outmsg.
Proof. solve_decision. Defined.

(** One [member.send(..)]: the receiving socket and the payload. *)
Abbreviation sent := (conn * outmsg)%type (only parsing).

(** What a handler reads from outside the relay's own state: the
    [readyState] of every socket, the [userId] drawn at connection time, the
    next [uuidv4()] and [Date.now()]. *)
Record env := mkEnv {
  readyState : conn → nat;
  userId : conn → string;
  uuidv4 : string;
  now : Z
}.

(** [for (const member of this.members)
       if (member !== exceptWs && member.readyState === 1) member.send(..)] *)
Fixpoint broadcast_loop (e : env) (ms : list conn) (message : outmsg)
    (exceptWs : option conn) : list sent :=
  match ms with
  | [] => []
  | member :: rest =>
      if decide (Some member ≠ exceptWs ∧ readyState e member = 1)
      then (member, message) :: broadcast_loop e rest message exceptWs
      else broadcast_loop e rest message exceptWs
  end.

Definition broadcast (e : env) (g : Group) (message : outmsg)
    (exceptWs : option conn) : list sent :=
  broadcast_loop e (members g) message exceptWs.

(** The relay: the store of group objects, [const groups = new Map()], and
    the variable [userGroup] of every connection's closure ([None] is
    [null]). *)
Record state := mkState {
  heap : list Group;
  groups : gmap string addr;
  userGroup : gmap conn addr
}.

Definition init : state := mkState [] ∅ ∅.

(** The parsed message: the fields the handlers read. *)
Record message := mkMessage {
  type : string;
  groupId : string;
  content : string;
  callType : string;
  data : string
}.

Definition on_create_group (e : env) (ws : conn) (st : state)
    : state * list sent :=
  let groupId := uuidv4 e in
  let a := length (heap st) in
  let group := add ws (mkGroup groupId []) in
  (mkState (heap st ++ [group]) (<[groupId := a]> (groups st))
           (<[ws := a]> (userGroup st)),
   [(ws, group_created groupId)]).

Definition on_join_group (ws : conn) (m : message) (st : state)
    : state * list sent :=
  let groupId := groupId m in
  let '(hp, gs) :=
    match groups st !! groupId with
    | Some _ => (heap st, groups st)
    | None => (heap st ++ [mkGroup groupId []],
               <[groupId := length (heap st)]> (groups st))
    end in
  match gs !! groupId with
  | Some a =>
      (mkState (alter (add ws) a hp) gs (<[ws := a]> (userGroup st)),
       [(ws, joined_group groupId)])
  | None => (st, [])
  end.

Definition on_leave_group (ws : conn) (st : state) : state * list sent :=
  match userGroup st !! ws with
  | Some a =>
      match heap st !! a with
      | Some g =>
          (mkState (alter (remove ws) a (heap st)) (groups st)
                   (delete ws (userGroup st)),
           [(ws, left_group (id g))])
      | None => (st, [])
      end
  | None => (st, [])
  end.

Definition on_chat_message (e : env) (ws : conn) (m : message) (st : state)
    : state * list sent :=
  match userGroup st !! ws with
  | None => (st, [(ws, error "Not in a group")])
  | Some a =>
      match heap st !! a with
      | Some g =>
          (st, broadcast e g
                 (chat_message (content m) (userId e ws) (now e)) (Some ws))
      | None => (st, [])
      end
  end.

Definition on_start_call (ws : conn) (m : message) (st : state)
    : state * list sent :=
  match userGroup st !! ws with
  | None => (st, [(ws, error "Not in a group")])
  | Some _ => (st, [(ws, call_allowed (callType m))])
  end.

Definition on_encrypted_signaling (e : env) (ws : conn) (m : message)
    (st : state) : state * list sent :=
  match userGroup st !! ws with
  | None => (st, [])
  | Some a =>
      match heap st !! a with
      | Some g => (st, broadcast e g (encrypted_signaling (data m)) (Some ws))
      | None => (st, [])
      end
  end.

(** [ws.on('message', ..)] on a frame the listener gets through: [None] is
    a frame on which [JSON.parse] throws, [Some m] one that parses to a
    value whose properties can be read.  The frame that parses to [null]
    is not among them: see [ws_on_message] below. *)
Definition on_message (e : env) (ws : conn) (parsed : option message)
    (st : state) : state * list sent :=
  match parsed with
  | None => (st, [(ws, error "Invalid JSON")])
  | Some m =>
      if decide (type m = "create_group") then on_create_group e ws st
      else if decide (type m = "join_group") then on_join_group ws m st
      else if decide (type m = "leave_group") then on_leave_group ws st
      else if decide (type m = "chat_message") then on_chat_message e ws m st
      else if decide (type m = "start_call") then on_start_call ws m st
      else if decide (type m = "encrypted_signaling")
           then on_encrypted_signaling e ws m st
      else (st, [(ws, error "Unknown message type")])
  end.

(** [ws.on('close', ..)] *)
Definition on_close (ws : conn) (st : state) : state :=
  match userGroup st !! ws with
  | Some a => mkState (alter (remove ws) a (heap st)) (groups st) (userGroup st)
  | None => st
  end.




(** The events the relay gets through (the frame [null] ends it), and the
    states it can be in. *)
Inductive event :=
| Message (e : env) (ws : conn) (parsed : option message)
| Close (ws : conn).

Definition step (ev : event) (st : state) : state :=
  match ev with
  | Message e ws parsed => (on_message e ws parsed st).1
  | Close ws => on_close ws st
  end.

Definition run (evs : list event) (st : state) : state :=
  foldl (λ s ev, step ev s) st evs.

Inductive reachable : state → Prop :=
| reachable_init : reachable init
| reachable_step st ev : reachable st → reachable (step ev st).

(** The room behind an identifier and the room a connection is in. *)
Definition room (st : state) (groupId : string) : option Group :=
  a ← groups st !! groupId; heap st !! a.

Definition current_room (st : state) (ws : conn) : option Group :=
  a ← userGroup st !! ws; heap st !! a.

(** What holds of the store in every state of the relay: a member set
    lists no connection twice, and every reference points into the
    store. *)
Definition wf (st : state) : Prop :=
  (∀ a g, heap st !! a = Some g → NoDup (members g)) ∧
  (∀ ws a, userGroup st !! ws = Some a → a < length (heap st)) ∧
  (∀ k a, groups st !! k = Some a → a < length (heap st)).

(** A message of a given type, and an environment in which every socket
    is open. *)
Definition msg (ty : string) : message := mkMessage ty "" "" "" "".

Definition join (gid : string) : message := mkMessage "join_group" gid "" "" "".

Definition env0 : env := mkEnv (λ _, 1) (λ _, "u") "g" 0.

(** Two connections in the room "r"; a room "g" created by one
    connection; a connection in the room "A". *)
Definition two_in_room : state :=
  run [Message env0 0 (Some (join "r")); Message env0 1 (Some (join "r"))] init.


Definition joined_A : state := run [Message env0 0 (Some (join "A"))] init.

(** The connection an event comes from, and membership of a connection in
    the group object at an address. *)
Definition actor (ev : event) : conn :=
  match ev with
  | Message _ ws _ => ws
  | Close ws => ws
  end.

Definition member_of (st : state) (a : addr) (d : conn) : Prop :=
  ∃ g, heap st !! a = Some g ∧ d ∈ members g.

(** The connections that a frame comes from in a sequence of events. *)
Definition senders (evs : list event) : list conn :=
  omap (λ ev, match ev with
              | Message _ ws _ => Some ws
              | Close _ => None
              end) evs.

(** The identifier under which a group object is registered is the one it
    carries. *)
Definition ids_agree (st : state) : Prop :=
  ∀ k a g, groups st !! k = Some a → heap st !! a = Some g → id g = k.

End Relay.

(** ** The platform functions the client calls

    Strings are sequences of UTF-16 code units and typed arrays are
    sequences of bytes, both as integers; [TextEncoder], [TextDecoder],
    [btoa] and [atob] follow the Encoding and HTML standards. *)

Module Js.

Local Open Scope Z_scope.

Abbreviation jsstring := (list Z) (only parsing).
Abbreviation bytes := (list Z) (only parsing).

Definition is_byte (b : Z) : Prop := 0 ≤ b < 256.
Definition is_code_unit (u : Z) : Prop := 0 ≤ u < 65536.

Definition is_sextet (v : Z) : Prop := 0 ≤ v < 64.

(** A scalar value: a code point that is not a surrogate. *)
Definition is_scalar (c : Z) : Prop :=
  0 ≤ c < 0xD800 ∨ 0xE000 ≤ c < 0x110000.

(** What a call can end with: a value, or a thrown exception (a rejected
    promise, for an [async] function). *)
Inductive exn :=
| TypeError
| RangeError
| SyntaxError
| InvalidCharacterError
| OperationError
| NotAllowedError.

Inductive completion (A : Type) :=
| Normal (a : A)
| Throw (e : exn).
Arguments Normal {A} a.
Arguments Throw {A} e.

Definition bind {A B} (c : completion A) (k : A → completion B)
    : completion B :=
  match c with
  | Normal a => k a
  | Throw e => Throw e
  end.

Definition try_catch {A} (body : completion A) (handler : exn → completion A)
    : completion A :=
  match body with
  | Normal a => Normal a
  | Throw e => handler e
  end.

Definition of_option {A} (e : exn) (o : option A) : completion A :=
  match o with
  | Some a => Normal a
  | None => Throw e
  end.

(** *** UTF-16 and UTF-8 *)

Definition is_high (u : Z) : bool := (0xD800 <=? u) && (u <=? 0xDBFF).
Definition is_low (u : Z) : bool := (0xDC00 <=? u) && (u <=? 0xDFFF).

(** A string without unpaired surrogates. *)
Fixpoint well_formed (s : jsstring) : bool :=
  match s with
  | [] => true
  | u :: rest =>
      if is_high u then
        match rest with
        | v :: rest' => is_low v && well_formed rest'
        | [] => false
        end
      else if is_low u then false
      else (0 <=? u) && (u <? 65536) && well_formed rest
  end.

(** Conversion of a string to scalar values: an unpaired surrogate becomes
    U+FFFD. *)
Fixpoint to_scalars (s : jsstring) : list Z :=
  match s with
  | [] => []
  | u :: rest =>
      if is_high u then
        match rest with
        | v :: rest' =>
            if is_low v
            then (0x10000 + (u - 0xD800) * 0x400 + (v - 0xDC00))
                   :: to_scalars rest'
            else 0xFFFD :: to_scalars rest
        | [] => [0xFFFD]
        end
      else if is_low u then 0xFFFD :: to_scalars rest
      else u :: to_scalars rest
  end.

Definition of_scalar (c : Z) : jsstring :=
  if c <? 0x10000 then [c]
  else [0xD800 + (c - 0x10000) / 0x400; 0xDC00 + (c - 0x10000) mod 0x400].

Definition of_scalars (cs : list Z) : jsstring := flat_map of_scalar cs.

Definition utf8_encode (c : Z) : bytes :=
  if c <? 0x80 then [c]
  else if c <? 0x800 then [0xC0 + c / 64; 0x80 + c mod 64]
  else if c <? 0x10000 then
    [0xE0 + c / 4096; 0x80 + (c / 64) mod 64; 0x80 + c mod 64]
  else
    [0xF0 + c / 262144; 0x80 + (c / 4096) mod 64; 0x80 + (c / 64) mod 64;
     0x80 + c mod 64].

(** [new TextEncoder().encode(s)] *)
Definition TextEncoder_encode (s : jsstring) : bytes :=
  flat_map utf8_encode (to_scalars s).

(** The UTF-8 decoder: the code point being assembled, the bytes it still
    needs and the bounds of the next byte. *)
Record utf8_decoder := mkDecoder {
  code_point : Z;
  bytes_needed : Z;
  lower_boundary : Z;
  upper_boundary : Z
}.

Definition decoder_init : utf8_decoder := mkDecoder 0 0 0x80 0xBF.

(** A byte read while no code point is under way: what is emitted and the
    next state. *)
Definition utf8_lead (b : Z) : list Z * utf8_decoder :=
  if (0 <=? b) && (b <=? 0x7F) then ([b], decoder_init)
  else if (0xC2 <=? b) && (b <=? 0xDF) then
    ([], mkDecoder (b mod 32) 1 0x80 0xBF)
  else if (0xE0 <=? b) && (b <=? 0xEF) then
    ([], mkDecoder (b mod 16) 2 (if b =? 0xE0 then 0xA0 else 0x80)
                   (if b =? 0xED then 0x9F else 0xBF))
  else if (0xF0 <=? b) && (b <=? 0xF4) then
    ([], mkDecoder (b mod 8) 3 (if b =? 0xF0 then 0x90 else 0x80)
                   (if b =? 0xF4 then 0x8F else 0xBF))
  else ([0xFFFD], decoder_init).

Fixpoint utf8_decode_from (d : utf8_decoder) (bs : bytes) : list Z :=
  match bs with
  | [] => if bytes_needed d =? 0 then [] else [0xFFFD]
  | b :: rest =>
      if bytes_needed d =? 0 then
        let '(out, d') := utf8_lead b in out ++ utf8_decode_from d' rest
      else if (b <? lower_boundary d) || (upper_boundary d <? b) then
        let '(out, d') := utf8_lead b in
        0xFFFD :: out ++ utf8_decode_from d' rest
      else
        let cp := code_point d * 64 + b mod 64 in
        if bytes_needed d =? 1
        then cp :: utf8_decode_from decoder_init rest
        else utf8_decode_from (mkDecoder cp (bytes_needed d - 1) 0x80 0xBF)
                              rest
  end.

Definition strip_bom (cs : list Z) : list Z :=
  match cs with
  | c :: rest => if c =? 0xFEFF then rest else cs
  | [] => []
  end.

(** [new TextDecoder().decode(bs)]: UTF-8, not fatal, the byte order mark
    is not kept. *)
Definition TextDecoder_decode (bs : bytes) : jsstring :=
  of_scalars (strip_bom (utf8_decode_from decoder_init bs)).

(** The engine that runs the code: how many arguments it takes in one
    call before it throws [RangeError] (the arguments of a call are put on
    the stack, so the number depends on the engine and on its stack). *)
Class Engine := { argument_limit : Z }.

(** [String.fromCharCode(...bs)]: the spread makes it a call with one
    argument for every byte, which the engine refuses when they are too
    many; the code unit of a byte is the byte. *)
Definition String_fromCharCode `{E : Engine} (bs : bytes)
    : completion jsstring :=
  if decide (Z.of_nat (length bs) ≤ argument_limit) then Normal bs
  else Throw RangeError.

(** [s.split('').map(c => c.charCodeAt(0))] *)
Definition char_codes (s : jsstring) : bytes := s.

(** *** Base64 *)

Definition base64_char (n : Z) : Z :=
  if n <? 26 then 65 + n
  else if n <? 52 then 97 + (n - 26)
  else if n <? 62 then 48 + (n - 52)
  else if n =? 62 then 43
  else 47.

Definition base64_value (c : Z) : option Z :=
  if (65 <=? c) && (c <=? 90) then Some (c - 65)
  else if (97 <=? c) && (c <=? 122) then Some (c - 97 + 26)
  else if (48 <=? c) && (c <=? 57) then Some (c - 48 + 52)
  else if c =? 43 then Some 62
  else if c =? 47 then Some 63
  else None.

Definition pad : Z := 61.

Fixpoint base64_encode (bs : bytes) : jsstring :=
  match bs with
  | b0 :: b1 :: b2 :: rest =>
      base64_char (b0 / 4)
      :: base64_char ((b0 mod 4) * 16 + b1 / 16)
      :: base64_char ((b1 mod 16) * 4 + b2 / 64)
      :: base64_char (b2 mod 64)
      :: base64_encode rest
  | [b0; b1] =>
      [base64_char (b0 / 4); base64_char ((b0 mod 4) * 16 + b1 / 16);
       base64_char ((b1 mod 16) * 4); pad]
  | [b0] => [base64_char (b0 / 4); base64_char ((b0 mod 4) * 16); pad; pad]
  | [] => []
  end.

(** The six-bit groups of a byte sequence, which [base64_encode] writes as
    characters. *)
Fixpoint base64_sextets (bs : bytes) : list Z :=
  match bs with
  | b0 :: b1 :: b2 :: rest =>
      b0 / 4 :: (b0 mod 4) * 16 + b1 / 16 :: (b1 mod 16) * 4 + b2 / 64
      :: b2 mod 64 :: base64_sextets rest
  | [b0; b1] => [b0 / 4; (b0 mod 4) * 16 + b1 / 16; (b1 mod 16) * 4]
  | [b0] => [b0 / 4; (b0 mod 4) * 16]
  | [] => []
  end.

(** [btoa(s)]: throws on a code unit above 255. *)
Definition btoa (s : jsstring) : completion jsstring :=
  if forallb (λ u, (0 <=? u) && (u <=? 255)) s
  then Normal (base64_encode s)
  else Throw InvalidCharacterError.

Definition is_ascii_whitespace (c : Z) : bool :=
  (c =? 9) || (c =? 10) || (c =? 12) || (c =? 13) || (c =? 32).

(** One or two [=] at the end are removed. *)
Definition strip_padding (s : jsstring) : jsstring :=
  match reverse s with
  | p1 :: p2 :: r =>
      if (p1 =? pad) && (p2 =? pad) then reverse r
      else if p1 =? pad then reverse (p2 :: r)
      else s
  | [p1] => if p1 =? pad then [] else s
  | [] => s
  end.

Fixpoint base64_decode (vs : list Z) : bytes :=
  match vs with
  | v0 :: v1 :: v2 :: v3 :: rest =>
      (v0 * 4 + v1 / 16) :: ((v1 mod 16) * 16 + v2 / 4)
      :: ((v2 mod 4) * 64 + v3) :: base64_decode rest
  | [v0; v1; v2] => [v0 * 4 + v1 / 16; (v1 mod 16) * 16 + v2 / 4]
  | [v0; v1] => [v0 * 4 + v1 / 16]
  | _ => []
  end.

(** [atob(s)]: the forgiving base64 decoding. *)
Definition atob (s : jsstring) : completion jsstring :=
  let d := filter (λ c, is_ascii_whitespace c = false) s in
  let d := if decide (length d mod 4 = 0)%nat then strip_padding d else d in
  if decide (length d mod 4 = 1)%nat then Throw InvalidCharacterError
  else
    match mapM base64_value d with
    | Some vs => Normal (base64_decode vs)
    | None => Throw InvalidCharacterError
    end.

End Js.

(** ** The symmetric channel (client/features/crypto.js) *)

Module Crypto.

Import Js.

#[global] Instance completion_ret : MRet completion := @Normal.
#[global] Instance completion_bind : MBind completion :=
  λ A B k c, bind c k.

(** [window.crypto.subtle] with an AES-GCM key: [None] is a rejected
    promise. *)
Class SubtleCrypto := {
  CryptoKey : Type;
  aes_gcm_encrypt : CryptoKey → bytes → bytes → option bytes;
  aes_gcm_decrypt : CryptoKey → bytes → bytes → option bytes
}.

(** The contract of the cipher: decryption under the same key and nonce
    inverts encryption, and a ciphertext is a sequence of bytes. *)
Class AesGcm (S : SubtleCrypto) : Prop := {
  decrypt_encrypt k iv d c :
    aes_gcm_encrypt k iv d = Some c → aes_gcm_decrypt k iv c = Some d;
  encrypt_bytes k iv d c :
    aes_gcm_encrypt k iv d = Some c → Forall is_byte c
}.

Section CryptoManager.

Context `{S : SubtleCrypto} `{E : Engine}.

Record CryptoManager := mkCryptoManager {
  keyPair : option CryptoKey;
  sharedKey : option CryptoKey
}.

(** The constructor, before the promise of [initializeKeys] settles. *)
Definition new_CryptoManager : CryptoManager := mkCryptoManager None None.

(** [initializeKeys], given what the two [generateKey] calls resolve to. *)
Definition initializeKeys (ecdh aes : option CryptoKey) (this : CryptoManager)
    : CryptoManager :=
  match ecdh with
  | None => this
  | Some kp =>
      match aes with
      | None => mkCryptoManager (Some kp) (sharedKey this)
      | Some k => mkCryptoManager (Some kp) (Some k)
      end
  end.

(** [encryptMessage(message)]; [iv] is what
    [getRandomValues(new Uint8Array(12))] returns. *)
Definition encryptMessage (this : CryptoManager) (iv : bytes)
    (message : jsstring) : completion jsstring :=
  match sharedKey this with
  | None => Normal message
  | Some key =>
      try_catch
        (let data := TextEncoder_encode message in
         encryptedData ← of_option OperationError (aes_gcm_encrypt key iv data);
         let combined := iv ++ encryptedData in
         chars ← String_fromCharCode combined;
         btoa chars)
        (λ error, Normal message)
  end.

Definition decryptMessage (this : CryptoManager) (encryptedMessage : jsstring)
    : completion jsstring :=
  match sharedKey this with
  | None => Normal encryptedMessage
  | Some key =>
      try_catch
        (decoded ← atob encryptedMessage;
         let combined := char_codes decoded in
         let iv := take 12 combined in
         let encryptedData := drop 12 combined in
         decryptedData ←
           of_option OperationError (aes_gcm_decrypt key iv encryptedData);
         Normal (TextDecoder_decode decryptedData))
        (λ error, Normal encryptedMessage)
  end.

End CryptoManager.

(** A change of one bit of one code unit of a string. *)
Definition flip_bit (i : nat) (j : Z) (s : jsstring) : jsstring :=
  alter (λ u, Z.lxor u (2 ^ j)) i s.

Definition single_bit_corruption (s c : jsstring) : Prop :=
  ∃ i j, (i < length s)%nat ∧ (0 ≤ j < 16)%Z ∧ c = flip_bit i j s.

(** A cipher to run the channel with: the ciphertext is the plaintext
    behind a one-byte tag over key, nonce and plaintext. *)
Definition toy_tag (k : Z) (iv d : bytes) : Z :=
  ((k + foldr Z.add 0 iv + foldr Z.add 0 d) mod 256)%Z.

#[global] Instance toy_subtle : SubtleCrypto := {|
  CryptoKey := Z;
  aes_gcm_encrypt k iv d :=
    if forallb (λ b, (0 <=? b) && (b <? 256)) d
    then Some (toy_tag k iv d :: d) else None;
  aes_gcm_decrypt k iv c :=
    match c with
    | t :: d => if t =? toy_tag k iv d then Some d else None
    | [] => None
    end
|}%Z.

(** An engine to run it on, with room for 65536 arguments. *)
#[global] Instance toy_engine : Engine := {| argument_limit := 65536 |}.

(** An engine that takes fourteen arguments only. *)
Definition small_engine : Engine := {| argument_limit := 14 |}.

(** A manager whose key is there, and a nonce. *)
Definition toy_manager : CryptoManager := mkCryptoManager None (Some 7%Z).

Definition iv0 : bytes := [1; 2; 3; 4; 5; 6; 7; 8; 9; 10; 11; 12]%Z.

(** [b.toString(16)] for a byte, [s.padStart(2, '0')], and
    [Array.from(bytes, b => b.toString(16).padStart(2, '0')).join('')]. *)
Definition hex_digit (n : Z) : Z := (if n <? 10 then 48 + n else 87 + n)%Z.

Definition toString16 (b : Z) : jsstring :=
  (if b <? 16 then [hex_digit b] else [hex_digit (b / 16); hex_digit (b mod 16)])%Z.

Definition padStart (n : nat) (c : Z) (s : jsstring) : jsstring :=
  replicate (n - length s) c ++ s.

Definition hex_string (bs : bytes) : jsstring :=
  flat_map (λ b, padStart 2 48%Z (toString16 b)) bs.

Definition is_hex_digit (c : Z) : Prop := (48 ≤ c ≤ 57 ∨ 97 ≤ c ≤ 102)%Z.

(** [generateRoomId()]: [array] is what [getRandomValues] wrote into the
    sixteen bytes. *)
Definition generateRoomId (array : bytes) : jsstring := hex_string array.

(** [hashData(data)], over the digest function of the platform. *)
Definition hashData (sha256 : bytes → bytes) (data : jsstring) : jsstring :=
  hex_string (sha256 (TextEncoder_encode data)).

(** A second manager, with another key. *)
Definition other_manager : CryptoManager := mkCryptoManager None (Some 8%Z).

End Crypto.

(** ** The call negotiator (client/features/voice.js) *)

Module Voice.

Import Js Crypto.

(** The values a field or an argument of the client can hold. *)
Inductive value :=
| Undefined
| Null
| Bool (b : bool)
| Num (n : Z)
| Str (s : string)
| Socket (sock : nat)
| Element (elementId : string)
| Object (ref : nat).

Definition truthy (v : value) : bool :=
  match v with
  | Undefined | Null => false
  | Bool b => b
  | Num n => negb (n =? 0)%Z
  | Str s => negb (String.eqb s "")
  | Socket _ | Element _ | Object _ => true
  end.

(** [WebSocket.OPEN] *)
Definition OPEN : nat := 1.

Record MediaStream := mkStream { stream_id : nat; getTracks : list nat }.

(** The payloads of the signaling channel. *)
Inductive signal :=
| offer (sdp : string) (isVideo : bool) (timestamp : Z)
| answer (sdp : string) (timestamp : Z)
| ice_candidate (candidate : string) (timestamp : Z).

(** What [encryptSignalingData] returns: the transport string, or the
    object itself when there is no key or encryption failed. *)
Inductive signal_data :=
| Encrypted (transport : jsstring)
| Plain (data : signal).

(** What the negotiator does to the world around it. *)
Inductive effect :=
| ws_send (sock : nat) (data : signal_data)
| track_stop (track : nat)
| track_disable (track : nat)
| add_track (pc track : nat)
| channel_close (channel : nat)
| channel_setup (channel : nat)
| pc_close (pc : nat)
| set_local_description (pc : nat) (sdp : string)
| clear_interval (timer : nat)
| set_srcObject (elementId : string) (stream : option nat)
| set_textContent (elementId text : string)
| set_timeout (delay : Z)
| window_gc.

Section VoiceManager.

Context `{S : SubtleCrypto} `{E : Engine}.
Variable JSON_stringify : signal → jsstring.

Record VoiceManager := mkVoiceManager {
  localStream : option MediaStream;
  remoteStream : option MediaStream;
  peerConnection : option nat;
  dataChannel : option nat;
  isCallActive : bool;
  isMuted : bool;
  isCameraOff : bool;
  callStartTime : option Z;
  callTimer : option nat;
  encryptionKey : option CryptoKey;
  isInitiator : bool;
  signalingData : gmap string string
}.

(** The constructor, before the promise of [initializeEncryption]
    settles. *)
Definition new_VoiceManager : VoiceManager :=
  mkVoiceManager None None None None false false false None None None false ∅.

(** The negotiator in its world: its fields, the [ws] captured by the
    [onicecandidate] closure of each peer connection, and what it did. *)
Record world := mkWorld {
  this : VoiceManager;
  onicecandidate : gmap nat value;
  trace : list effect
}.

(** What the platform answers during one call into the negotiator. *)
Record platform := mkPlatform {
  getElementById : string → bool;
  has_gc : bool;
  socket_readyState : nat → nat;
  getUserMedia : completion MediaStream;
  new_RTCPeerConnection : nat;
  createDataChannel : nat;
  createOffer : completion string;
  setLocalDescription : completion unit;
  setInterval : nat;
  getRandomValues : bytes;
  Date_now : Z
}.

(** Computations over the world that may throw. *)
Definition Eff (A : Type) : Type := world → completion A * world.

Definition eff_ret {A} (a : A) : Eff A := λ w, (Normal a, w).

Definition eff_bind {A B} (m : Eff A) (k : A → Eff B) : Eff B :=
  λ w, match m w with
       | (Normal a, w') => k a w'
       | (Throw e, w') => (Throw e, w')
       end.

Definition throw {A} (e : exn) : Eff A := λ w, (Throw e, w).

Definition eff_try {A} (body : Eff A) (handler : exn → Eff A) : Eff A :=
  λ w, match body w with
       | (Normal a, w') => (Normal a, w')
       | (Throw e, w') => handler e w'
       end.

Definition await {A} (c : completion A) : Eff A := λ w, (c, w).

Definition read {A} (f : VoiceManager → A) : Eff A :=
  λ w, (Normal (f (this w)), w).

Definition assign (f : VoiceManager → VoiceManager) : Eff unit :=
  λ w, (Normal tt, mkWorld (f (this w)) (onicecandidate w) (trace w)).

Definition emit (e : effect) : Eff unit :=
  λ w, (Normal tt, mkWorld (this w) (onicecandidate w) (trace w ++ [e])).

Definition set_onicecandidate (pc : nat) (ws : value) : Eff unit :=
  λ w, (Normal tt, mkWorld (this w) (<[pc := ws]> (onicecandidate w)) (trace w)).

(** A member access on a value that may be [null]. *)
Definition deref {A} (o : option A) : Eff A :=
  match o with
  | Some a => eff_ret a
  | None => throw TypeError
  end.

Definition when (b : bool) (body : Eff unit) : Eff unit :=
  if b then body else eff_ret tt.

Fixpoint forEach {A} (l : list A) (f : A → Eff unit) : Eff unit :=
  match l with
  | [] => eff_ret tt
  | x :: rest => eff_bind (f x) (λ _, forEach rest f)
  end.

Notation "'let*' x := m 'in' k" := (eff_bind m (λ x, k))
  (at level 10, x name, m at level 100, k at level 200, only parsing).
Notation "m ;; k" := (eff_bind m (λ _, k))
  (at level 100, k at level 200, right associativity, only parsing).

(** Assignments to the fields of [this]. *)
Definition set_localStream (v : option MediaStream) (t : VoiceManager) :=
  mkVoiceManager v (remoteStream t) (peerConnection t) (dataChannel t)
    (isCallActive t) (isMuted t) (isCameraOff t) (callStartTime t)
    (callTimer t) (encryptionKey t) (isInitiator t) (signalingData t).

Definition set_remoteStream (v : option MediaStream) (t : VoiceManager) :=
  mkVoiceManager (localStream t) v (peerConnection t) (dataChannel t)
    (isCallActive t) (isMuted t) (isCameraOff t) (callStartTime t)
    (callTimer t) (encryptionKey t) (isInitiator t) (signalingData t).

Definition set_peerConnection (v : option nat) (t : VoiceManager) :=
  mkVoiceManager (localStream t) (remoteStream t) v (dataChannel t)
    (isCallActive t) (isMuted t) (isCameraOff t) (callStartTime t)
    (callTimer t) (encryptionKey t) (isInitiator t) (signalingData t).

Definition set_dataChannel (v : option nat) (t : VoiceManager) :=
  mkVoiceManager (localStream t) (remoteStream t) (peerConnection t) v
    (isCallActive t) (isMuted t) (isCameraOff t) (callStartTime t)
    (callTimer t) (encryptionKey t) (isInitiator t) (signalingData t).

Definition set_isCallActive (v : bool) (t : VoiceManager) :=
  mkVoiceManager (localStream t) (remoteStream t) (peerConnection t)
    (dataChannel t) v (isMuted t) (isCameraOff t) (callStartTime t)
    (callTimer t) (encryptionKey t) (isInitiator t) (signalingData t).

Definition set_callStartTime (v : option Z) (t : VoiceManager) :=
  mkVoiceManager (localStream t) (remoteStream t) (peerConnection t)
    (dataChannel t) (isCallActive t) (isMuted t) (isCameraOff t) v
    (callTimer t) (encryptionKey t) (isInitiator t) (signalingData t).

Definition set_callTimer (v : option nat) (t : VoiceManager) :=
  mkVoiceManager (localStream t) (remoteStream t) (peerConnection t)
    (dataChannel t) (isCallActive t) (isMuted t) (isCameraOff t)
    (callStartTime t) v (encryptionKey t) (isInitiator t) (signalingData t).

Definition set_encryptionKey (v : option CryptoKey) (t : VoiceManager) :=
  mkVoiceManager (localStream t) (remoteStream t) (peerConnection t)
    (dataChannel t) (isCallActive t) (isMuted t) (isCameraOff t)
    (callStartTime t) (callTimer t) v (isInitiator t) (signalingData t).

Definition set_isInitiator (v : bool) (t : VoiceManager) :=
  mkVoiceManager (localStream t) (remoteStream t) (peerConnection t)
    (dataChannel t) (isCallActive t) (isMuted t) (isCameraOff t)
    (callStartTime t) (callTimer t) (encryptionKey t) v (signalingData t).

Definition clear_signalingData (t : VoiceManager) :=
  mkVoiceManager (localStream t) (remoteStream t) (peerConnection t)
    (dataChannel t) (isCallActive t) (isMuted t) (isCameraOff t)
    (callStartTime t) (callTimer t) (encryptionKey t) (isInitiator t) ∅.

(** [document.getElementById(id)]: the element, or [null]. *)
Definition document_getElementById (p : platform) (elementId : string)
    : option string :=
  if getElementById p elementId then Some elementId else None.

(** [if (x)] on an object or [null], and on a timer handle. *)
Definition is_object {A} (o : option A) : bool :=
  match o with Some _ => true | None => false end.

Definition is_timer (o : option nat) : bool :=
  match o with Some n => negb (n =? 0)%nat | None => false end.

Definition startCallTimer (p : platform) : Eff unit :=
  assign (set_callStartTime (Some (Date_now p))) ;;
  assign (set_callTimer (Some (setInterval p))).

Definition stopCallTimer (p : platform) : Eff unit :=
  (let* callTimer := read callTimer in
   when (is_timer callTimer)
     (let* timer := deref callTimer in
      emit (clear_interval timer) ;;
      assign (set_callTimer None))) ;;
  let timerElement := document_getElementById p "callTimer" in
  when (is_object timerElement)
    (let* el := deref timerElement in emit (set_textContent el "00:00")).

Definition endCall (p : platform) : Eff unit :=
  (let* localStream := read localStream in
   when (is_object localStream)
     (let* stream := deref localStream in
      forEach (getTracks stream)
        (λ track, emit (track_stop track) ;; emit (track_disable track)) ;;
      assign (set_localStream None))) ;;
  (let* remoteStream := read remoteStream in
   when (is_object remoteStream)
     (let* stream := deref remoteStream in
      forEach (getTracks stream) (λ track, emit (track_stop track)) ;;
      assign (set_remoteStream None))) ;;
  (let* dataChannel := read dataChannel in
   when (is_object dataChannel)
     (let* channel := deref dataChannel in
      emit (channel_close channel) ;;
      assign (set_dataChannel None))) ;;
  (let* peerConnection := read peerConnection in
   when (is_object peerConnection)
     (let* pc := deref peerConnection in
      emit (pc_close pc) ;;
      assign (set_peerConnection None))) ;;
  assign clear_signalingData ;;
  assign (set_isCallActive false) ;;
  stopCallTimer p ;;
  let localVideo := document_getElementById p "localVideo" in
  let remoteVideo := document_getElementById p "remoteVideo" in
  when (is_object localVideo)
    (let* el := deref localVideo in emit (set_srcObject el None)) ;;
  when (is_object remoteVideo)
    (let* el := deref remoteVideo in emit (set_srcObject el None)) ;;
  when (has_gc p) (emit window_gc).

Definition handleCallDisconnection (p : platform) : Eff unit := endCall p.

(** [encryptSignalingData(data)]; [iv] is what [getRandomValues] returns. *)
Definition encryptSignalingData (t : VoiceManager) (iv : bytes)
    (data : signal) : signal_data :=
  match encryptionKey t with
  | None => Plain data
  | Some key =>
      let dataBuffer := TextEncoder_encode (JSON_stringify data) in
      match
        bind (of_option OperationError (aes_gcm_encrypt key iv dataBuffer))
             (λ encryptedData,
                let combined := iv ++ encryptedData in
                bind (String_fromCharCode combined) btoa)
      with
      | Normal transport => Encrypted transport
      | Throw error => Plain data
      end
  end.

(** [if (ws && ws.readyState === WebSocket.OPEN) ws.send(..)] *)
Definition readyState_of (p : platform) (ws : value) : option nat :=
  match ws with
  | Socket sock => Some (socket_readyState p sock)
  | _ => None
  end.

Definition send_if_open (p : platform) (ws : value) (data : signal_data)
    : Eff unit :=
  when (truthy ws && bool_decide (readyState_of p ws = Some OPEN))
    (match ws with
     | Socket sock => emit (ws_send sock data)
     | _ => throw TypeError
     end).

(** The [onicecandidate] closure installed by [startCall] and
    [handleOffer], with the [ws] it captured. *)
Definition on_icecandidate (p : platform) (ws : value)
    (candidate : option string) : Eff unit :=
  when (is_object candidate)
    (let* c := deref candidate in
     let* t := read id in
     let encryptedCandidate :=
       encryptSignalingData t (getRandomValues p)
                            (ice_candidate c (Date_now p)) in
     send_if_open p ws encryptedCandidate).

(** The [icecandidate] event of a peer connection. *)
Definition icecandidate (p : platform) (pc : nat) (candidate : option string)
    : Eff unit :=
  λ w, match onicecandidate w !! pc with
       | Some ws => on_icecandidate p ws candidate w
       | None => (Normal tt, w)
       end.

Definition handleCallError (p : platform) (message : string) : Eff unit :=
  (let* el := deref (document_getElementById p "callStatus") in
   emit (set_textContent el "Call Failed")) ;;
  emit (set_timeout 3000).

(** A parameter with a default value. *)
Definition default_to (d v : value) : value :=
  match v with Undefined => d | _ => v end.

(** [startCall(isVideo = false, ws = null)] *)
Definition startCall (p : platform) (isVideo ws : value) : Eff unit :=
  let isVideo := truthy (default_to (Bool false) isVideo) in
  let ws := default_to Null ws in
  eff_try
    (assign (set_isInitiator true) ;;
     let* stream := await (getUserMedia p) in
     assign (set_localStream (Some stream)) ;;
     when isVideo
       (let localVideo := document_getElementById p "localVideo" in
        when (is_object localVideo)
          (let* el := deref localVideo in
           emit (set_srcObject el (Some (stream_id stream))))) ;;
     let pc := new_RTCPeerConnection p in
     assign (set_peerConnection (Some pc)) ;;
     assign (set_dataChannel (Some (createDataChannel p))) ;;
     emit (channel_setup (createDataChannel p)) ;;
     forEach (getTracks stream) (λ track, emit (add_track pc track)) ;;
     set_onicecandidate pc ws ;;
     let* sdp := await (createOffer p) in
     await (setLocalDescription p) ;;
     emit (set_local_description pc sdp) ;;
     let* t := read id in
     let encryptedOffer :=
       encryptSignalingData t (getRandomValues p)
                            (offer sdp isVideo (Date_now p)) in
     send_if_open p ws encryptedOffer ;;
     assign (set_isCallActive true) ;;
     startCallTimer p ;;
     let* el := deref (document_getElementById p "callStatus") in
     emit (set_textContent el "Connecting securely..."))
    (λ error, handleCallError p "Failed to access camera/microphone").

(** A computation that returns normally, changes the fields of the
    negotiator by [f], installs no handler and only adds to the trace. *)
Definition transforms (f : VoiceManager → VoiceManager) (m : Eff unit)
    : Prop :=
  ∀ w, ∃ tr,
    m w = (Normal tt, mkWorld (f (this w)) (onicecandidate w) (trace w ++ tr)).

(** The fields after [endCall]. *)
Definition ended (t : VoiceManager) : VoiceManager :=
  mkVoiceManager None None None None false (isMuted t) (isCameraOff t)
    (callStartTime t) (if is_timer (callTimer t) then None else callTimer t)
    (encryptionKey t) (isInitiator t) ∅.

(** The messages the negotiator handed to a socket. *)
Definition sends (tr : list effect) : list (nat * signal_data) :=
  omap (λ e, match e with ws_send sock d => Some (sock, d) | _ => None end) tr.

(** A platform on which every call succeeds, and the negotiator as the
    constructor leaves it. *)
Definition platform0 : platform :=
  mkPlatform (λ _, true) false (λ _, 1) (Normal (mkStream 0 [0; 1])) 5 6
             (Normal "sdp") (Normal tt) 9 iv0 0.

Definition world0 : world := mkWorld new_VoiceManager ∅ [].

Definition not_a_send (e : effect) : Prop :=
  match e with ws_send _ _ => False | _ => True end.

(** A computation that writes to no socket and installs only handlers that
    captured [null]. *)
Definition mute {A} (m : Eff A) : Prop :=
  ∀ w, sends (trace (m w).2) = sends (trace w) ∧
       ∀ pc v, onicecandidate (m w).2 !! pc = Some v →
               onicecandidate w !! pc = Some v ∨ v = Null.

(** *** Inbound signaling *)

Variable JSON_parse : jsstring → completion (option signal).

(** What the platform answers on the answering side. *)
Record answer_platform := mkAnswerPlatform {
  createAnswer : completion string;
  setRemoteDescription : completion unit;
  addIceCandidate : completion unit
}.

(** What [decryptSignalingData] returns: a signal, its argument as it
    came, or a parsed value that is no signal. [JSON_parse] throws, or parses
    to a signal ([Some]) or to another value ([None]). *)
Inductive decrypted :=
| Data (d : signal_data)
| Other.

(** The string an object turns into when [atob] is given one. *)
Definition object_string : jsstring :=
  [91; 111; 98; 106; 101; 99; 116; 32; 79; 98; 106; 101; 99; 116; 93]%Z.

Definition decryptSignalingData (t : VoiceManager)
    (encryptedData : signal_data) : decrypted :=
  match encryptionKey t with
  | None => Data encryptedData
  | Some key =>
      let s := match encryptedData with
               | Encrypted s => s
               | Plain _ => object_string
               end in
      match
        bind (atob s) (λ decoded,
          let combined := char_codes decoded in
          let iv := take 12 combined in
          let encrypted := drop 12 combined in
          bind (of_option OperationError (aes_gcm_decrypt key iv encrypted))
               (λ decryptedData,
                  JSON_parse (TextDecoder_decode decryptedData)))
      with
      | Normal (Some data) => Data (Plain data)
      | Normal None => Other
      | Throw error => Data encryptedData
      end
  end.

Definition handleOffer (p : platform) (ap : answer_platform)
    (isVideo : bool) (ws : value) : Eff unit :=
  (let* existing := read peerConnection in
   when (negb (is_object existing))
     (let pc := new_RTCPeerConnection p in
      assign (set_peerConnection (Some pc)) ;;
      let* stream := await (getUserMedia p) in
      assign (set_localStream (Some stream)) ;;
      when isVideo
        (let localVideo := document_getElementById p "localVideo" in
         when (is_object localVideo)
           (let* el := deref localVideo in
            emit (set_srcObject el (Some (stream_id stream))))) ;;
      forEach (getTracks stream) (λ track, emit (add_track pc track)) ;;
      set_onicecandidate pc ws)) ;;
  let* current := read peerConnection in
  let* pc := deref current in
  await (setRemoteDescription ap) ;;
  let* sdp := await (createAnswer ap) in
  await (setLocalDescription p) ;;
  emit (set_local_description pc sdp) ;;
  let* t := read id in
  let encryptedAnswer :=
    encryptSignalingData t (getRandomValues p) (answer sdp (Date_now p)) in
  send_if_open p ws encryptedAnswer ;;
  assign (set_isCallActive true) ;;
  startCallTimer p.

Definition handleAnswer (ap : answer_platform) : Eff unit :=
  let* pc := read peerConnection in
  when (is_object pc) (await (setRemoteDescription ap)).

Definition handleIceCandidate (ap : answer_platform) : Eff unit :=
  let* pc := read peerConnection in
  when (is_object pc) (await (addIceCandidate ap)).

(** [handleEncryptedSignaling(encryptedData, ws)]: a string, or a value
    without a [type] the [switch] knows, matches no case. *)
Definition handleEncryptedSignaling (p : platform) (ap : answer_platform)
    (encryptedData : signal_data) (ws : value) : Eff unit :=
  eff_try
    (let* t := read id in
     match decryptSignalingData t encryptedData with
     | Data (Plain (offer _ isVideo _)) => handleOffer p ap isVideo ws
     | Data (Plain (answer _ _)) => handleAnswer ap
     | Data (Plain (ice_candidate _ _)) => handleIceCandidate ap
     | Data (Encrypted _) => eff_ret tt
     | Other => eff_ret tt
     end)
    (λ error, eff_ret tt).

(** A computation that returns normally, changes the fields of the
    negotiator by [f], installs no handler and adds [g] to the trace. *)
Definition runs (f : VoiceManager → VoiceManager)
    (g : VoiceManager → list effect) (m : Eff unit) : Prop :=
  ∀ w, m w = (Normal tt,
              mkWorld (f (this w)) (onicecandidate w) (trace w ++ g (this w))).

(** What [endCall] does to the world around the negotiator. *)
Definition endCall_effects (p : platform) (t : VoiceManager) : list effect :=
  match localStream t with
  | Some s => flat_map (λ track, [track_stop track; track_disable track])
                       (getTracks s)
  | None => []
  end ++
  match remoteStream t with
  | Some s => track_stop <$> getTracks s
  | None => []
  end ++
  match dataChannel t with Some c => [channel_close c] | None => [] end ++
  match peerConnection t with Some pc => [pc_close pc] | None => [] end ++
  (if is_timer (callTimer t)
   then match callTimer t with Some n => [clear_interval n] | None => [] end
   else []) ++
  (if getElementById p "callTimer" then [set_textContent "callTimer" "00:00"]
   else []) ++
  (if getElementById p "localVideo" then [set_srcObject "localVideo" None]
   else []) ++
  (if getElementById p "remoteVideo" then [set_srcObject "remoteVideo" None]
   else []) ++
  (if has_gc p then [window_gc] else []).

(** A platform on which the answering side succeeds. *)
Definition answers : answer_platform :=
  mkAnswerPlatform (Normal "sdp2") (Normal tt) (Normal tt).

End VoiceManager.

End Voice.

(** ** The application (client/main.js) *)

Module App.

Import Js Crypto Voice.

(** The properties of the [SecureChatApp] object: a property that was never
    assigned reads as [undefined]. *)
Definition get (name : string) (this : gmap string value) : value :=
  default Undefined (this !! name).

(** The fields [initializeElements] fills and the element each comes
    from. *)
Definition elements : list (string * string) :=
  [("welcomeScreen", "welcomeScreen"); ("chatInterface", "chatInterface");
   ("callInterface", "callInterface"); ("createGroupBtn", "createGroupBtn");
   ("joinGroupBtn", "joinGroupBtn"); ("groupIdInput", "groupIdInput");
   ("messagesContainer", "messagesContainer");
   ("messageInput", "messageInput"); ("sendBtn", "sendBtn");
   ("currentGroupIdSpan", "currentGroupId");
   ("connectionStatus", "connectionStatus");
   ("typingIndicator", "typingIndicator"); ("leaveGroupBtn", "leaveGroupBtn");
   ("voiceCallBtn", "voiceCallBtn"); ("videoCallBtn", "videoCallBtn");
   ("screenShareBtn", "screenShareBtn"); ("callStatus", "callStatus");
   ("callTimer", "callTimer"); ("muteBtn", "muteBtn");
   ("endCallBtn", "endCallBtn"); ("cameraBtn", "cameraBtn")].

Definition element_value (p : platform) (elementId : string) : value :=
  if getElementById p elementId then Element elementId else Null.

Definition initializeElements (p : platform) (this : gmap string value)
    : gmap string value :=
  foldl (λ t fe, <[fe.1 := element_value p fe.2]> t) this elements.

(** [connectWebSocket]: [sock] is the socket [new WebSocket(..)] makes. *)
Definition connectWebSocket (sock : nat) (this : gmap string value)
    : gmap string value :=
  <["wss" := Socket sock]> this.

(** The constructor: [cm] and [vm] are the two manager objects. *)
Definition constructor (p : platform) (cm vm sock : nat)
    : gmap string value :=
  connectWebSocket sock
    (initializeElements p
       (<["typingTimeout" := Null]>
          (<["isTyping" := Bool false]>
             (<["voiceManager" := Object vm]>
                (<["cryptoManager" := Object cm]>
                   (<["currentGroupId" := Null]>
                      (<["wss" := Null]> ∅))))))).

Section SecureChatApp.

Context `{S : SubtleCrypto} `{E : Engine}.
Variable JSON_stringify : signal → jsstring.

(** [handleWebSocketMessage(message)], on the fields of the application
    and on the negotiator; the rendering it triggers is left out, and the
    case [encrypted_signaling] is [handleSignaling] below. *)
Definition handleWebSocketMessage (p : platform) (message : Relay.outmsg)
    (this : gmap string value) (w : world)
    : gmap string value * (completion unit * world) :=
  match message with
  | Relay.group_created groupId =>
      (<["currentGroupId" := Str groupId]> this, (Normal tt, w))
  | Relay.joined_group groupId =>
      (<["currentGroupId" := Str groupId]> this, (Normal tt, w))
  | Relay.call_allowed callType =>
      (this,
       startCall JSON_stringify p (Bool (String.eqb callType "video"))
                 (get "ws" this) w)
  | _ => (this, (Normal tt, w))
  end.

(** [sendMessage()]: [messageText] is the trimmed text of the input field;
    the result is what is written to the socket, the [content] of a
    [chat_message]. *)
Definition sendMessage (cm : CryptoManager) (iv : bytes) (p : platform)
    (messageText : jsstring) (this : gmap string value)
    : completion (list (nat * jsstring)) :=
  match messageText with
  | [] => Normal []
  | _ =>
      encryptedMessage ← encryptMessage cm iv messageText;
      let wss := get "wss" this in
      if truthy wss && bool_decide (readyState_of p wss = Some OPEN)
      then match wss with
           | Socket sock => Normal [(sock, encryptedMessage)]
           | _ => Throw TypeError
           end
      else Normal []
  end.

End SecureChatApp.

(** [handleTyping], the callback of its timeout, and [leaveGroup]. *)
Definition handleTyping (timer : Z) (this : gmap string value)
    : gmap string value :=
  let this :=
    if truthy (get "isTyping" this) then this
    else <["isTyping" := Bool true]> this in
  <["typingTimeout" := Num timer]> this.

Definition typing_timeout (this : gmap string value) : gmap string value :=
  <["isTyping" := Bool false]> this.

Definition leaveGroup (this : gmap string value) : gmap string value :=
  <["currentGroupId" := Null]> this.

(** The case [encrypted_signaling] of [handleWebSocketMessage]: the
    payload goes to the negotiator together with [this.wss]. *)
Definition handleSignaling `{S : SubtleCrypto} `{E : Engine}
    (JSON_stringify : signal → jsstring)
    (JSON_parse : jsstring → completion (option signal))
    (p : platform) (ap : answer_platform) (data : signal_data)
    (this : gmap string value) (w : world) : completion unit * world :=
  handleEncryptedSignaling JSON_stringify JSON_parse p ap data
                           (get "wss" this) w.

(** The application objects that can come about. *)
Inductive reachable : gmap string value → Prop :=
| reach_constructor p cm vm sock : reachable (constructor p cm vm sock)
| reach_message `{S : SubtleCrypto} `{E : Engine} stringify p message this w :
    reachable this →
    reachable (handleWebSocketMessage stringify p message this w).1
| reach_reconnect sock this :
    reachable this → reachable (connectWebSocket sock this)
| reach_typing timer this : reachable this → reachable (handleTyping timer this)
| reach_typing_timeout this : reachable this → reachable (typing_timeout this)
| reach_leave this : reachable this → reachable (leaveGroup this).

End App.

Module RelaySpec.

Import Relay.

(** The dispatch on [message.type], once the type is known. *)
Ltac dispatch Hty :=
  unfold on_message; rewrite Hty; repeat case_decide; try done.

Lemma set_add_NoDup x s : NoDup s → NoDup (set_add x s).
Proof.
  intros Hs. unfold set_add. case_decide; [done|].
  apply NoDup_app. split_and!; [done| |apply NoDup_singleton].
  intros y Hy Hin. apply list_elem_of_singleton in Hin. by subst.
Qed.

Lemma set_delete_NoDup x s : NoDup s → NoDup (set_delete x s).
Proof. apply NoDup_filter. Qed.

Lemma elem_of_set_add x y s : y ∈ set_add x s ↔ y = x ∨ y ∈ s.
Proof.
  unfold set_add. case_decide.
  - split; [auto|]. by intros [->|].
  - rewrite elem_of_app, list_elem_of_singleton. tauto.
Qed.

Lemma elem_of_set_delete x y s : y ∈ set_delete x s ↔ y ≠ x ∧ y ∈ s.
Proof. unfold set_delete. by rewrite list_elem_of_filter. Qed.

(** Altering one object of the store keeps it well formed when the
    alteration keeps member sets free of duplicates. *)
Lemma wf_alter f a st gs ug :
  (∀ g, NoDup (members g) → NoDup (members (f g))) →
  (∀ ws b, ug !! ws = Some b → b < length (heap st)) →
  (∀ k b, gs !! k = Some b → b < length (heap st)) →
  wf st → wf (mkState (alter f a (heap st)) gs ug).
Proof.
  intros Hf Hug Hgs (Hnd & _ & _). split_and!; simpl.
  - intros b g. rewrite list_lookup_alter. case_decide.
    + subst. destruct (heap st !! b) eqn:E; simpl; [|done].
      intros [= <-]. eauto.
    + eauto.
  - intros ws b ?. rewrite length_alter. eauto.
  - intros k b ?. rewrite length_alter. eauto.
Qed.

Lemma wf_on_create_group e ws st : wf st → wf (on_create_group e ws st).1.
Proof.
  intros (Hnd & Hug & Hgs). unfold on_create_group. split_and!; simpl.
  - intros a g Hl. apply lookup_app_Some in Hl as [Hl|[_ Hl]]; [eauto|].
    apply list_lookup_singleton_Some in Hl as [_ <-]. simpl.
    apply set_add_NoDup, NoDup_nil_2.
  - intros c a. rewrite length_app. simpl. rewrite lookup_insert.
    case_decide; [intros [= <-]; lia|]. intros ?%Hug. lia.
  - intros k a. rewrite length_app. simpl. rewrite lookup_insert.
    case_decide; [intros [= <-]; lia|]. intros ?%Hgs. lia.
Qed.

Lemma wf_on_join_group ws m st : wf st → wf (on_join_group ws m st).1.
Proof.
  intros Hwf. pose proof Hwf as (Hnd & Hug & Hgs). unfold on_join_group.
  destruct (groups st !! groupId m) as [a|] eqn:E.
  - rewrite E. simpl. apply wf_alter; [|  |done|done].
    + intros g. apply set_add_NoDup.
    + intros c b. rewrite lookup_insert. case_decide; [|eauto].
      intros [= <-]. eauto.
  - rewrite lookup_insert_eq. simpl.
    set (st1 := mkState (heap st ++ [mkGroup (groupId m) []])
                        (<[groupId m := length (heap st)]> (groups st))
                        (userGroup st)).
    assert (wf st1) as Hwf1.
    { split_and!; simpl.
      - intros a g Hl. apply lookup_app_Some in Hl as [Hl|[_ Hl]]; [eauto|].
        apply list_lookup_singleton_Some in Hl as [_ <-]. apply NoDup_nil_2.
      - intros c a ?%Hug. rewrite length_app. simpl. lia.
      - intros k a. rewrite length_app. simpl. rewrite lookup_insert.
        case_decide; [intros [= <-]; lia|]. intros ?%Hgs. lia. }
    change (heap st ++ [mkGroup (groupId m) []]) with (heap st1).
    apply (wf_alter _ _ st1).
    + intros g. apply set_add_NoDup.
    + intros c b. rewrite lookup_insert. simpl. rewrite length_app. simpl.
      case_decide; [intros [= <-]; lia|]. intros ?%Hug. lia.
    + apply Hwf1.
    + done.
Qed.

Lemma wf_on_message e ws parsed st : wf st → wf (on_message e ws parsed st).1.
Proof.
  intros Hwf. pose proof Hwf as (Hnd & Hug & Hgs).
  destruct parsed as [m|]; [|done]. unfold on_message.
  repeat case_decide.
  - by apply wf_on_create_group.
  - by apply wf_on_join_group.
  - unfold on_leave_group. destruct (userGroup st !! ws) as [a|] eqn:E; [|done].
    destruct (heap st !! a) as [g|]; [|done]. simpl.
    apply wf_alter; [| |done|done].
    + intros g'. apply set_delete_NoDup.
    + intros c b [_ ?]%lookup_delete_Some. eauto.
  - unfold on_chat_message. by repeat case_match.
  - unfold on_start_call. by repeat case_match.
  - unfold on_encrypted_signaling. by repeat case_match.
  - done.
Qed.

Lemma wf_step ev st : wf st → wf (step ev st).
Proof.
  intros Hwf. destruct ev as [e ws parsed|ws]; simpl.
  - by apply wf_on_message.
  - unfold on_close. destruct (userGroup st !! ws) as [a|]; [|done].
    destruct Hwf as (Hnd & Hug & Hgs).
    apply wf_alter; [|done|done|done].
    intros g. apply set_delete_NoDup.
Qed.

Lemma reachable_wf st : reachable st → wf st.
Proof.
  induction 1 as [|st ev _ IH].
  - split_and!; simpl; intros ??; by rewrite ?lookup_nil, ?lookup_empty.
  - by apply wf_step.
Qed.

Lemma reachable_run evs st : reachable st → reachable (run evs st).
Proof.
  revert st. induction evs as [|ev evs IH]; intros st Hst; [done|].
  simpl. apply IH. by constructor.
Qed.

(** [Group.broadcast]: who is written to, over a member set without
    duplicates. *)
Lemma broadcast_loop_recipients e ms M c :
  NoDup ms →
  NoDup (broadcast_loop e ms M (Some c)).*1 ∧
  (∀ d, d ∈ (broadcast_loop e ms M (Some c)).*1 ↔
        d ∈ ms ∧ d ≠ c ∧ readyState e d = 1) ∧
  (∀ d m', (d, m') ∈ broadcast_loop e ms M (Some c) → m' = M).
Proof.
  induction 1 as [|x ms Hx Hms (IH1 & IH2 & IH3)]; simpl.
  - split_and!; [constructor| |].
    + intros d. rewrite !elem_of_nil. tauto.
    + intros d m'. by rewrite elem_of_nil.
  - case_decide as Hc; simpl.
    + destruct Hc as [Hne Hopen].
      assert (x ≠ c) by congruence.
      split_and!.
      * constructor; [|done]. rewrite IH2. tauto.
      * intros d. rewrite !elem_of_cons, IH2. split.
        -- intros [->|?]; tauto.
        -- intros ([->|?] & ? & ?); tauto.
      * intros d m'. rewrite elem_of_cons. intros [[= -> ->]|?]; eauto.
    + split_and!; [done| |done].
      intros d. rewrite elem_of_cons, IH2. split; [tauto|].
      intros ([->|?] & ? & ?); [|tauto].
      exfalso. apply Hc. split; congruence.
Qed.

(** C1. A broadcast of [M] to a room of the relay on behalf of a member [c]
    writes [M], once, to exactly the members other than [c] whose
    [readyState] is open, and to no other connection; the [chat_message]
    handler of a connection in that room is such a broadcast and changes
    nothing in the relay. *)
Theorem broadcast_exactly_open_members st e a g c M m :
  reachable st → heap st !! a = Some g → c ∈ members g →
  NoDup (broadcast e g M (Some c)).*1 ∧
  (∀ d, d ∈ (broadcast e g M (Some c)).*1 ↔
        d ∈ members g ∧ d ≠ c ∧ readyState e d = 1) ∧
  (∀ d m', (d, m') ∈ broadcast e g M (Some c) → m' = M) ∧
  (userGroup st !! c = Some a → type m = "chat_message" →
   on_message e c (Some m) st =
     (st, broadcast e g (chat_message (content m) (userId e c) (now e))
                    (Some c))).
Proof.
  intros Hst Hg Hc. apply reachable_wf in Hst as (Hnd & _ & _).
  destruct (broadcast_loop_recipients e (members g) M c) as (H1 & H2 & H3);
    [eauto|].
  split_and!; [done..|].
  intros Hu Hty. dispatch Hty.
  unfold on_chat_message. by rewrite Hu, Hg.
Qed.

(** Two open connections in one room, and a chat message of the first. *)
Lemma broadcast_exactly_open_members_witness :
  on_message env0 0 (Some (msg "chat_message")) two_in_room =
    (two_in_room,
     broadcast env0 (mkGroup "r" [0; 1]) (chat_message "" "u" 0) (Some 0)).
Proof.
  apply (broadcast_exactly_open_members two_in_room env0 0
           (mkGroup "r" [0; 1]) 0 (encrypted_signaling "x")
           (msg "chat_message")).
  - apply reachable_run, reachable_init.
  - reflexivity.
  - apply list_elem_of_here.
  - reflexivity.
  - reflexivity.
Defined.

Lemma on_message_leave e ws m st :
  type m = "leave_group" → on_message e ws (Some m) st = on_leave_group ws st.
Proof.
  intros Hty. dispatch Hty.
Qed.

Lemma on_message_join e ws m st :
  type m = "join_group" → on_message e ws (Some m) st = on_join_group ws m st.
Proof.
  intros Hty. dispatch Hty.
Qed.

(** C4. A connection outside every room: [chat_message] and [start_call]
    are answered with an error to the sender alone and change nothing;
    [encrypted_signaling] changes nothing either, and is answered with
    nothing at all. *)
Theorem outside_room_replies st e ws m :
  userGroup st !! ws = None →
  (type m = "chat_message" ∨ type m = "start_call" →
   on_message e ws (Some m) st = (st, [(ws, error "Not in a group")])) ∧
  (type m = "encrypted_signaling" → on_message e ws (Some m) st = (st, [])).
Proof.
  intros Hu. split.
  - intros [Hty|Hty]; dispatch Hty.
    + unfold on_chat_message. by rewrite Hu.
    + unfold on_start_call. by rewrite Hu.
  - intros Hty. dispatch Hty.
    unfold on_encrypted_signaling. by rewrite Hu.
Qed.

(** A connection that joined nothing sends a signaling message. *)
Lemma outside_room_replies_witness :
  on_message env0 0 (Some (msg "encrypted_signaling")) init = (init, []).
Proof.
  apply (outside_room_replies init env0 0 (msg "encrypted_signaling"));
    reflexivity.
Defined.




(** A connection joins room A and then room B: it is a member of both. *)
Lemma member_of_two_rooms :
  let st := run [Message env0 0 (Some (join "A"));
                 Message env0 0 (Some (join "B"))] init in
  reachable st ∧
  ∃ gA gB, room st "A" = Some gA ∧ room st "B" = Some gB ∧
           0 ∈ members gA ∧ 0 ∈ members gB.
Proof.
  intros st. split; [apply reachable_run, reachable_init|].
  exists (mkGroup "A" [0]), (mkGroup "B" [0]).
  split_and!; [reflexivity..| |]; apply list_elem_of_here.
Qed.

(** C6, as the relay has it. A connection has one current room, the one it
    created or joined last. [join_group] for a room B, from a member of a
    room A, adds the connection to the member set of B and makes B its
    current room, and the connection stays in the member set of A. *)
Theorem join_group_keeps_old_membership st e ws m A gA :
  reachable st → room st A = Some gA → ws ∈ members gA →
  type m = "join_group" →
  ∃ gA' gB,
    room (on_message e ws (Some m) st).1 A = Some gA' ∧ ws ∈ members gA' ∧
    room (on_message e ws (Some m) st).1 (groupId m) = Some gB ∧
    ws ∈ members gB ∧
    current_room (on_message e ws (Some m) st).1 ws = Some gB.
Proof.
  intros Hst HA Hws Hty. apply reachable_wf in Hst as (Hnd & Hug & Hgs).
  rewrite on_message_join by done. unfold room in HA.
  destruct (groups st !! A) as [a|] eqn:Ea; [|done]. simpl in HA.
  unfold on_join_group, room, current_room.
  destruct (groups st !! groupId m) as [b|] eqn:Eb.
  - rewrite Eb. simpl. rewrite Ea, Eb, lookup_insert_eq. simpl.
    destruct (heap st !! b) as [gb|] eqn:Hb.
    2:{ apply Hgs in Eb. apply lookup_ge_None in Hb. lia. }
    exists (if decide (b = a) then add ws gA else gA), (add ws gb).
    rewrite list_lookup_alter, list_lookup_alter_eq, Hb, HA. simpl.
    split_and!; try done.
    + case_decide; [|done]. subst b. congruence.
    + case_decide; [|done]. apply elem_of_set_add. by right.
    + apply elem_of_set_add. by left.
  - rewrite lookup_insert_eq. simpl. rewrite !lookup_insert_eq. simpl.
    assert (A ≠ groupId m) as Hne by congruence.
    rewrite lookup_insert_ne, Ea by done. simpl.
    pose proof (Hgs _ _ Ea) as Hlt.
    exists gA, (add ws (mkGroup (groupId m) [])).
    rewrite list_lookup_alter_ne by lia.
    rewrite lookup_app_l by done.
    rewrite list_lookup_alter_eq, list_lookup_middle by done. simpl.
    split_and!; try done. apply list_elem_of_here.
Qed.

Lemma join_group_keeps_old_membership_witness :
  ∃ gA' gB,
    room (on_message env0 0 (Some (join "B")) joined_A).1 "A" = Some gA' ∧
    0 ∈ members gA' ∧
    room (on_message env0 0 (Some (join "B")) joined_A).1 "B" = Some gB ∧
    0 ∈ members gB ∧
    current_room (on_message env0 0 (Some (join "B")) joined_A).1 0 = Some gB.
Proof.
  apply (join_group_keeps_old_membership joined_A env0 0 (join "B") "A"
           (mkGroup "A" [0])).
  - apply reachable_run, reachable_init.
  - reflexivity.
  - apply list_elem_of_here.
  - reflexivity.
Defined.

(** C8. [leave_group] from a connection that is in no room is answered
    with nothing, no error either, and changes nothing in the relay; and
    after one [leave_group] of a connection a second one changes nothing
    more. *)
Theorem leave_group_idempotent st e e' ws m m' :
  type m = "leave_group" → type m' = "leave_group" →
  (current_room st ws = None → on_message e ws (Some m) st = (st, [])) ∧
  on_message e' ws (Some m') (on_message e ws (Some m) st).1 =
    ((on_message e ws (Some m) st).1, []).
Proof.
  intros Hty Hty'. rewrite !on_message_leave by done. split.
  - unfold current_room, on_leave_group.
    destruct (userGroup st !! ws) as [a|]; [|done]. simpl. by intros ->.
  - unfold on_leave_group.
    destruct (userGroup st !! ws) as [a|] eqn:Eu;
      [destruct (heap st !! a) as [g|] eqn:Eg|]; simpl;
      by rewrite ?Eu, ?Eg, ?lookup_delete_eq.
Qed.

Lemma leave_group_idempotent_witness :
  on_message env0 0 (Some (msg "leave_group")) init = (init, []).
Proof.
  apply (leave_group_idempotent init env0 env0 0
           (msg "leave_group") (msg "leave_group")); reflexivity.
Defined.

End RelaySpec.

Module JsSpec.

Import Js.
Local Open Scope Z_scope.

(** Case analysis on the integer comparisons of a goal. *)
Ltac zcases :=
  repeat first
    [ match goal with
      | |- context [?a <? ?b] => destruct (Z.ltb_spec a b)
      | |- context [?a <=? ?b] => destruct (Z.leb_spec a b)
      | |- context [?a =? ?b] => destruct (Z.eqb_spec a b)
      end; simpl ].

(** Induction on a list three elements at a time. *)
Lemma list_ind3 {A} (P : list A → Prop) :
  P [] → (∀ a, P [a]) → (∀ a b, P [a; b]) →
  (∀ a b c l, P l → P (a :: b :: c :: l)) → ∀ l, P l.
Proof.
  intros H0 H1 H2 H3 l.
  cut (P l ∧ (∀ a, P (a :: l)) ∧ (∀ a b, P (a :: b :: l))); [tauto|].
  induction l as [|x l (IH0 & IH1 & IH2)]; [done|].
  split_and!; [done..|]. intros a b. by apply H3.
Qed.

Lemma base64_value_char n : is_sextet n → base64_value (base64_char n) = Some n.
Proof.
  unfold is_sextet, base64_char. intros Hn.
  zcases; unfold base64_value; zcases; try lia; f_equal; lia.
Qed.

Lemma base64_char_not_pad n : is_sextet n → base64_char n ≠ pad.
Proof. unfold is_sextet, base64_char, pad. intros Hn. zcases; lia. Qed.

Lemma base64_char_not_whitespace n :
  is_sextet n → is_ascii_whitespace (base64_char n) = false.
Proof.
  unfold is_sextet, base64_char. intros Hn.
  zcases; unfold is_ascii_whitespace; zcases; try lia; done.
Qed.

Lemma base64_sextets_range bs :
  Forall is_byte bs → Forall is_sextet (base64_sextets bs).
Proof.
  unfold is_byte, is_sextet.
  induction bs as [|a|a b|a b c l IH] using list_ind3; simpl; intros Hbs.
  - constructor.
  - apply Forall_cons in Hbs as [Ha _].
    repeat (apply Forall_cons_2; [Z.div_mod_to_equations; lia|]).
    apply Forall_nil_2.
  - apply Forall_cons in Hbs as [Ha [Hb _]%Forall_cons].
    repeat (apply Forall_cons_2; [Z.div_mod_to_equations; lia|]).
    apply Forall_nil_2.
  - apply Forall_cons in Hbs as [Ha [Hb [Hc Hl]%Forall_cons]%Forall_cons].
    repeat (apply Forall_cons_2; [Z.div_mod_to_equations; lia|]).
    by apply IH.
Qed.

Lemma base64_decode_sextets bs :
  Forall is_byte bs → base64_decode (base64_sextets bs) = bs.
Proof.
  unfold is_byte.
  induction bs as [|a|a b|a b c l IH] using list_ind3; simpl; intros Hbs.
  - done.
  - apply Forall_cons in Hbs as [Ha _].
    f_equal. Z.div_mod_to_equations; lia.
  - apply Forall_cons in Hbs as [Ha [Hb _]%Forall_cons].
    repeat f_equal; Z.div_mod_to_equations; lia.
  - apply Forall_cons in Hbs as [Ha [Hb [Hc Hl]%Forall_cons]%Forall_cons].
    rewrite IH by done.
    repeat f_equal; Z.div_mod_to_equations; lia.
Qed.

(** The encoding is the characters of the six-bit groups, then at most two
    padding characters that fill the last group of four. *)
Lemma base64_encode_shape bs :
  ∃ k, (k ≤ 2)%nat ∧
    base64_encode bs = (base64_char <$> base64_sextets bs) ++ replicate k pad ∧
    ((length (base64_sextets bs) + k) mod 4 = 0)%nat ∧
    (length (base64_sextets bs) mod 4 ≠ 1)%nat.
Proof.
  induction bs as [|a|a b|a b c l (k & Hk & IH & Hlen & Hne)] using list_ind3.
  - exists 0%nat. split_and!; [lia|reflexivity|reflexivity|by compute].
  - exists 2%nat. split_and!; [lia|reflexivity|reflexivity|by compute].
  - exists 1%nat. split_and!; [lia|reflexivity|reflexivity|by compute].
  - exists k.
    assert (length (base64_sextets (a :: b :: c :: l)) =
            (length (base64_sextets l) + 1 * 4)%nat) as -> by (simpl; lia).
    split_and!; [done|simpl; by rewrite IH| |].
    + replace (length (base64_sextets l) + 1 * 4 + k)%nat
        with (length (base64_sextets l) + k + 1 * 4)%nat by lia.
      by rewrite Nat.Div0.mod_add.
    + by rewrite Nat.Div0.mod_add.
Qed.

Lemma strip_padding_app cs k :
  (k ≤ 2)%nat → Forall (λ c, c ≠ pad) cs →
  strip_padding (cs ++ replicate k pad) = cs.
Proof.
  intros Hk Hcs. unfold strip_padding.
  assert (∀ p r, reverse cs = p :: r → (p =? pad) = false) as Hlast.
  { intros p r Hr. apply Z.eqb_neq.
    eapply Forall_forall in Hcs; [exact Hcs|].
    apply elem_of_reverse. rewrite Hr. apply list_elem_of_here. }
  destruct k as [|[|[|k]]]; [| | |lia]; simpl.
  - rewrite app_nil_r. destruct (reverse cs) as [|p1 [|p2 r]] eqn:Hr; [done| |].
    + by rewrite (Hlast _ _ eq_refl).
    + by rewrite (Hlast _ _ eq_refl).
  - rewrite reverse_app. simpl.
    destruct (reverse cs) as [|p2 r] eqn:Hr; simpl.
    + apply (f_equal reverse) in Hr. by rewrite reverse_involutive in Hr.
    + rewrite (Hlast _ _ eq_refl). simpl. by rewrite <- Hr, reverse_involutive.
  - rewrite reverse_app. simpl. by rewrite reverse_involutive.
Qed.

Lemma filter_all {A} (P : A → Prop) `{∀ x, Decision (P x)} l :
  Forall P l → filter P l = l.
Proof.
  induction 1 as [|x l Hx _ IH]; [done|].
  by rewrite filter_cons_True, IH.
Qed.

Lemma mapM_base64_value vs :
  Forall is_sextet vs → mapM base64_value (base64_char <$> vs) = Some vs.
Proof.
  intros Hvs. apply mapM_fmap_Forall_Some.
  eapply Forall_impl; [exact Hvs|]. apply base64_value_char.
Qed.

(** [atob] inverts [btoa] on byte strings. *)
Lemma atob_base64_encode bs :
  Forall is_byte bs →
  btoa bs = Normal (base64_encode bs) ∧ atob (base64_encode bs) = Normal bs.
Proof.
  intros Hbs. split.
  - unfold btoa. rewrite (proj2 (forallb_forall _ _)); [done|].
    intros b Hb%list_elem_of_In. eapply Forall_forall in Hbs; [|exact Hb].
    unfold is_byte in Hbs. zcases; [done|lia..].
  - pose proof (base64_sextets_range bs Hbs) as Hvs.
    destruct (base64_encode_shape bs) as (k & Hk & -> & Hlen & Hne).
    set (cs := base64_char <$> base64_sextets bs).
    assert (Forall (λ c, c ≠ pad) cs) as Hnp.
    { apply Forall_fmap. eapply Forall_impl; [exact Hvs|].
      intros v. apply base64_char_not_pad. }
    unfold atob. rewrite filter_all.
    2:{ apply Forall_app. split.
        - apply Forall_fmap. eapply Forall_impl; [exact Hvs|].
          intros v. simpl. apply base64_char_not_whitespace.
        - apply Forall_replicate. done. }
    assert (length (cs ++ replicate k pad) mod 4 = 0)%nat as Hfull.
    { rewrite length_app, length_replicate. unfold cs. by rewrite length_fmap. }
    rewrite (decide_True _ _ Hfull), strip_padding_app by done.
    rewrite decide_False by (unfold cs; by rewrite length_fmap).
    unfold cs. rewrite mapM_base64_value by done.
    by rewrite base64_decode_sextets.
Qed.

(** *** UTF-8 and UTF-16 *)

(** A continuation byte within the bounds of the decoder. *)
Lemma utf8_decode_continue d b rest :
  bytes_needed d ≠ 0 → lower_boundary d ≤ b ≤ upper_boundary d →
  utf8_decode_from d (b :: rest) =
    if bytes_needed d =? 1
    then (code_point d * 64 + b mod 64) :: utf8_decode_from decoder_init rest
    else utf8_decode_from
           (mkDecoder (code_point d * 64 + b mod 64) (bytes_needed d - 1)
                      0x80 0xBF) rest.
Proof.
  intros Hn Hb. simpl.
  destruct (Z.eqb_spec (bytes_needed d) 0); [done|].
  destruct (Z.ltb_spec b (lower_boundary d)); [lia|].
  destruct (Z.ltb_spec (upper_boundary d) b); [lia|]. done.
Qed.

Lemma utf8_decode_lead b rest :
  utf8_decode_from decoder_init (b :: rest) =
    (utf8_lead b).1 ++ utf8_decode_from (utf8_lead b).2 rest.
Proof. simpl. by destruct (utf8_lead b). Qed.

Lemma utf8_lead_1 c : 0 ≤ c < 0x80 → utf8_lead c = ([c], decoder_init).
Proof. intros Hc. unfold utf8_lead. zcases; (done || lia). Qed.

Lemma utf8_lead_2 c :
  0x80 ≤ c < 0x800 →
  utf8_lead (0xC0 + c / 64) = ([], mkDecoder (c / 64) 1 0x80 0xBF).
Proof.
  intros Hc. unfold utf8_lead.
  assert (2 ≤ c / 64 < 32) by (Z.div_mod_to_equations; lia).
  zcases; try lia. do 2 f_equal. Z.div_mod_to_equations; lia.
Qed.

Lemma utf8_lead_3 c :
  0x800 ≤ c < 0x10000 →
  utf8_lead (0xE0 + c / 4096) =
    ([], mkDecoder (c / 4096) 2 (if c / 4096 =? 0 then 0xA0 else 0x80)
                   (if c / 4096 =? 13 then 0x9F else 0xBF)).
Proof.
  intros Hc. unfold utf8_lead.
  assert (0 ≤ c / 4096 < 16) by (Z.div_mod_to_equations; lia).
  assert ((0xE0 + c / 4096) mod 16 = c / 4096) as ->
    by (Z.div_mod_to_equations; lia).
  zcases; try lia; done.
Qed.

Lemma utf8_lead_4 c :
  0x10000 ≤ c < 0x110000 →
  utf8_lead (0xF0 + c / 262144) =
    ([], mkDecoder (c / 262144) 3 (if c / 262144 =? 0 then 0x90 else 0x80)
                   (if c / 262144 =? 4 then 0x8F else 0xBF)).
Proof.
  intros Hc. unfold utf8_lead.
  assert (0 ≤ c / 262144 < 5) by (Z.div_mod_to_equations; lia).
  assert ((0xF0 + c / 262144) mod 8 = c / 262144) as ->
    by (Z.div_mod_to_equations; lia).
  zcases; try lia; done.
Qed.

(** The fields of a decoder that is written out. *)
Ltac fields :=
  cbn [bytes_needed code_point lower_boundary upper_boundary];
  change (3 - 1) with 2; change (2 - 1) with 1;
  change (3 =? 1) with false; change (2 =? 1) with false;
  change (1 =? 1) with true; cbv iota.

(** The decoder reads back the encoding of a scalar value. *)
Lemma utf8_decode_encode c rest :
  is_scalar c →
  utf8_decode_from decoder_init (utf8_encode c ++ rest) =
    c :: utf8_decode_from decoder_init rest.
Proof.
  unfold is_scalar, utf8_encode. intros Hc.
  destruct (Z.ltb_spec c 0x80); [|destruct (Z.ltb_spec c 0x800);
    [|destruct (Z.ltb_spec c 0x10000)]].
  - simpl app. rewrite utf8_decode_lead, utf8_lead_1 by lia. done.
  - simpl app. rewrite utf8_decode_lead, utf8_lead_2 by lia. simpl fst.
    simpl snd. rewrite app_nil_l, utf8_decode_continue; fields.
    + f_equal. Z.div_mod_to_equations; lia.
    + done.
    + Z.div_mod_to_equations; lia.
  - simpl app. rewrite utf8_decode_lead, utf8_lead_3 by lia. simpl fst.
    simpl snd. rewrite app_nil_l, utf8_decode_continue; fields.
    + rewrite utf8_decode_continue; fields.
      * f_equal. Z.div_mod_to_equations; lia.
      * done.
      * Z.div_mod_to_equations; lia.
    + done.
    + zcases; Z.div_mod_to_equations; lia.
  - simpl app. rewrite utf8_decode_lead, utf8_lead_4 by lia. simpl fst.
    simpl snd. rewrite app_nil_l, utf8_decode_continue; fields.
    + rewrite utf8_decode_continue; fields.
      * rewrite utf8_decode_continue; fields.
        -- f_equal. Z.div_mod_to_equations; lia.
        -- done.
        -- Z.div_mod_to_equations; lia.
      * done.
      * Z.div_mod_to_equations; lia.
    + done.
    + zcases; Z.div_mod_to_equations; lia.
Qed.

Lemma utf8_decode_encode_all cs :
  Forall is_scalar cs →
  utf8_decode_from decoder_init (flat_map utf8_encode cs) = cs.
Proof.
  induction 1 as [|c cs Hc _ IH]; [done|].
  simpl. by rewrite utf8_decode_encode, IH.
Qed.

Lemma of_scalars_cons c cs : of_scalars (c :: cs) = of_scalar c ++ of_scalars cs.
Proof. done. Qed.

Local Arguments of_scalars : simpl never.

Lemma is_high_true u : is_high u = true → 0xD800 ≤ u ≤ 0xDBFF.
Proof. unfold is_high. zcases; (done || lia). Qed.

Lemma is_low_true u : is_low u = true → 0xDC00 ≤ u ≤ 0xDFFF.
Proof. unfold is_low. zcases; (done || lia). Qed.

Lemma not_surrogate u :
  is_high u = false → is_low u = false → ¬ 0xD800 ≤ u ≤ 0xDFFF.
Proof. unfold is_high, is_low. zcases; (done || lia). Qed.

(** A well-formed string is the UTF-16 form of its scalar values. *)
Lemma to_scalars_well_formed s :
  well_formed s = true →
  Forall is_scalar (to_scalars s) ∧ of_scalars (to_scalars s) = s.
Proof.
  remember (length s) as n eqn:Hn. revert s Hn.
  induction n as [n IH] using lt_wf_ind. intros s Hn.
  destruct s as [|u rest]; [done|]. simpl.
  destruct (is_high u) eqn:Hh.
  - destruct rest as [|v rest']; [done|].
    destruct (is_low v) eqn:Hl; simpl; [|done].
    apply is_high_true in Hh. apply is_low_true in Hl.
    intros Hwf. destruct (IH (length rest')) with (s := rest')
      as [IH1 IH2]; [simpl in Hn; lia|done|done|].
    split.
    + constructor; [|done]. unfold is_scalar. lia.
    + rewrite of_scalars_cons, IH2. unfold of_scalar.
      destruct (Z.ltb_spec (65536 + (u - 55296) * 1024 + (v - 56320))
                           65536); [lia|].
      simpl. f_equal; [|f_equal]; Z.div_mod_to_equations; lia.
  - destruct (is_low u) eqn:Hl; [done|].
    pose proof (not_surrogate u Hh Hl) as Hu.
    intros [[H0 H1]%andb_true_iff Hwf]%andb_true_iff.
    apply Z.leb_le in H0. apply Z.ltb_lt in H1.
    destruct (IH (length rest)) with (s := rest)
      as [IH1 IH2]; [simpl in Hn; lia|done|done|].
    split.
    + constructor; [|done]. unfold is_scalar. lia.
    + rewrite of_scalars_cons, IH2. unfold of_scalar.
      destruct (Z.ltb_spec u 65536); [done|lia].
Qed.

(** The first scalar value is U+FEFF only when the first code unit is. *)
Lemma strip_bom_to_scalars s :
  head s ≠ Some 0xFEFF → strip_bom (to_scalars s) = to_scalars s.
Proof.
  destruct s as [|u rest]; [done|]. simpl. intros Hu.
  assert (u ≠ 0xFEFF) by congruence.
  destruct (is_high u) eqn:Hh.
  - apply is_high_true in Hh.
    destruct rest as [|v rest']; [done|].
    destruct (is_low v) eqn:Hl; simpl; [|done].
    apply is_low_true in Hl.
    destruct (Z.eqb_spec (65536 + (u - 55296) * 1024 + (v - 56320)) 65279);
      [lia|done].
  - destruct (is_low u) eqn:Hl; simpl; [done|].
    destruct (Z.eqb_spec u 65279); [lia|done].
Qed.

(** [TextDecoder] reads back what [TextEncoder] wrote, for a well-formed
    string that does not begin with U+FEFF. *)
Lemma TextDecoder_TextEncoder s :
  well_formed s = true → head s ≠ Some 0xFEFF →
  TextDecoder_decode (TextEncoder_encode s) = s.
Proof.
  intros Hwf Hbom. apply to_scalars_well_formed in Hwf as [Hsc Hof].
  unfold TextDecoder_decode, TextEncoder_encode.
  by rewrite utf8_decode_encode_all, strip_bom_to_scalars.
Qed.

(** A leading U+FEFF is lost on the way. *)
Lemma TextDecoder_TextEncoder_bom s :
  well_formed s = true →
  TextDecoder_decode (TextEncoder_encode (0xFEFF :: s)) =
    of_scalars (to_scalars s).
Proof.
  intros Hwf. apply to_scalars_well_formed in Hwf as [Hsc _].
  unfold TextDecoder_decode, TextEncoder_encode.
  change (to_scalars (0xFEFF :: s)) with (0xFEFF :: to_scalars s).
  rewrite utf8_decode_encode_all; [done|].
  constructor; [|done]. unfold is_scalar. lia.
Qed.

End JsSpec.

Module CryptoSpec.

Import Js Crypto JsSpec.
Local Open Scope Z_scope.

#[global] Instance toy_aes_gcm : AesGcm toy_subtle.
Proof.
  split.
  - intros k iv d c. simpl. case_match; [|done]. intros [= <-].
    by rewrite Z.eqb_refl.
  - intros k iv d c. simpl. case_match eqn:Hd; [|done]. intros [= <-].
    constructor.
    + unfold is_byte, toy_tag. Z.div_mod_to_equations; lia.
    + apply Forall_forall. intros b Hb%list_elem_of_In.
      eapply forallb_forall in Hd; [|exact Hb].
      unfold is_byte. apply andb_true_iff in Hd as [?%Z.leb_le ?%Z.ltb_lt]. lia.
Qed.

Section CryptoManager.

Context `{S : SubtleCrypto} `{E : Engine}.

(** [decryptMessage] of a transport string made of a nonce of twelve bytes
    and a ciphertext. *)
Lemma decryptMessage_transport this k iv c :
  sharedKey this = Some k → length iv = 12%nat →
  Forall is_byte iv → Forall is_byte c →
  decryptMessage this (base64_encode (iv ++ c)) =
    match aes_gcm_decrypt k iv c with
    | Some d => Normal (TextDecoder_decode d)
    | None => Normal (base64_encode (iv ++ c))
    end.
Proof.
  intros Hk Hiv Hbiv Hbc. unfold decryptMessage. rewrite Hk.
  destruct (atob_base64_encode (iv ++ c)) as [_ ->];
    [by apply Forall_app|].
  simpl. unfold char_codes.
  rewrite take_app_length' by done. rewrite drop_app_length' by done.
  by destruct (aes_gcm_decrypt k iv c).
Qed.

(** [encryptMessage] when the cipher accepts the plaintext and the engine
    takes nonce and ciphertext as the arguments of one call. *)
Lemma encryptMessage_transport `{!AesGcm S} this k iv P c :
  sharedKey this = Some k → Forall is_byte iv →
  aes_gcm_encrypt k iv (TextEncoder_encode P) = Some c →
  Z.of_nat (length (iv ++ c)) ≤ argument_limit →
  encryptMessage this iv P = Normal (base64_encode (iv ++ c)).
Proof.
  intros Hk Hbiv Henc Hlen.
  pose proof (encrypt_bytes _ _ _ _ Henc) as Hbc.
  unfold encryptMessage. rewrite Hk, Henc. simpl.
  unfold String_fromCharCode. rewrite decide_True by done. simpl.
  destruct (atob_base64_encode (iv ++ c)) as [-> _];
    [by apply Forall_app|done].
Qed.

(** [encryptMessage] when nonce and ciphertext are more than the engine
    takes as the arguments of one call: the spread throws [RangeError],
    and the [catch] returns the message. *)
Lemma encryptMessage_over_limit this k iv P c :
  sharedKey this = Some k →
  aes_gcm_encrypt k iv (TextEncoder_encode P) = Some c →
  argument_limit < Z.of_nat (length (iv ++ c)) →
  encryptMessage this iv P = Normal P.
Proof.
  intros Hk Henc Hlen. unfold encryptMessage. rewrite Hk, Henc. simpl.
  unfold String_fromCharCode. by rewrite decide_False by lia.
Qed.

(** C2, as the code has it. With the key initialized, the cipher
    accepting the plaintext, and nonce and ciphertext together no more
    than the engine takes as the arguments of one call, [encryptMessage]
    returns the base64 form of the twelve-byte nonce followed by the
    ciphertext, and [decryptMessage] returns the plaintext from it, for a
    plaintext without unpaired surrogates that does not begin with
    U+FEFF. *)
Theorem encrypt_decrypt_round_trip `{!AesGcm S} this k iv P c :
  sharedKey this = Some k → length iv = 12%nat → Forall is_byte iv →
  well_formed P = true → head P ≠ Some 0xFEFF →
  aes_gcm_encrypt k iv (TextEncoder_encode P) = Some c →
  Z.of_nat (length (iv ++ c)) ≤ argument_limit →
  encryptMessage this iv P = Normal (base64_encode (iv ++ c)) ∧
  decryptMessage this (base64_encode (iv ++ c)) = Normal P.
Proof.
  intros Hk Hiv Hbiv Hwf Hbom Henc Hlen.
  pose proof (encrypt_bytes _ _ _ _ Henc) as Hbc.
  split.
  - by apply (encryptMessage_transport this k).
  - rewrite (decryptMessage_transport this k) by done.
    rewrite (decrypt_encrypt _ _ _ _ Henc).
    by rewrite TextDecoder_TextEncoder.
Qed.

(** A plaintext that begins with U+FEFF comes back without it, whatever the
    cipher. *)
Lemma byte_order_mark_is_lost `{!AesGcm S} this k iv s c :
  sharedKey this = Some k → length iv = 12%nat → Forall is_byte iv →
  well_formed s = true →
  aes_gcm_encrypt k iv (TextEncoder_encode (0xFEFF :: s)) = Some c →
  Z.of_nat (length (iv ++ c)) ≤ argument_limit →
  encryptMessage this iv (0xFEFF :: s) = Normal (base64_encode (iv ++ c)) ∧
  decryptMessage this (base64_encode (iv ++ c)) = Normal s.
Proof.
  intros Hk Hiv Hbiv Hwf Henc Hlen.
  pose proof (encrypt_bytes _ _ _ _ Henc) as Hbc.
  split.
  - by apply (encryptMessage_transport this k).
  - rewrite (decryptMessage_transport this k) by done.
    rewrite (decrypt_encrypt _ _ _ _ Henc).
    rewrite TextDecoder_TextEncoder_bom by done.
    by destruct (to_scalars_well_formed s Hwf) as [_ ->].
Qed.

(** C3, as the code has it. [decryptMessage] never throws: without a key,
    on a string that is not base64 and on a ciphertext the cipher rejects, it
    returns the string it was given. *)
Theorem decryptMessage_returns_input_on_failure this c :
  (∃ s, decryptMessage this c = Normal s) ∧
  (sharedKey this = None → decryptMessage this c = Normal c) ∧
  (∀ e, atob c = Throw e → decryptMessage this c = Normal c) ∧
  (∀ k d, sharedKey this = Some k → atob c = Normal d →
     aes_gcm_decrypt k (take 12 d) (drop 12 d) = None →
     decryptMessage this c = Normal c).
Proof.
  unfold decryptMessage. split_and!.
  - destruct (sharedKey this) as [k|]; [|by eexists].
    destruct (atob c) as [d|e]; simpl; [|by eexists].
    unfold char_codes.
    destruct (aes_gcm_decrypt k (take 12 d) (drop 12 d)); simpl; by eexists.
  - by intros ->.
  - intros e He. destruct (sharedKey this); [|done]. by rewrite He.
  - intros k d -> Hd Hdec. rewrite Hd. simpl. unfold char_codes.
    by rewrite Hdec.
Qed.

(** C9. Without a key, and when the cipher rejects the encryption,
    [encryptMessage] returns the message itself, which [sendMessage] then
    writes to the open socket as the chat content; without a key
    [decryptMessage] returns its input. The key is missing from the
    constructor on, until [initializeKeys] has completed. *)
Theorem encryptMessage_falls_back_to_plaintext this iv M :
  (sharedKey this = None →
   encryptMessage this iv M = Normal M ∧ decryptMessage this M = Normal M) ∧
  (∀ k, sharedKey this = Some k →
     aes_gcm_encrypt k iv (TextEncoder_encode M) = None →
     encryptMessage this iv M = Normal M) ∧
  (∀ p sock fields,
     encryptMessage this iv M = Normal M → M ≠ [] →
     fields !! "wss" = Some (Voice.Socket sock) →
     Voice.socket_readyState p sock = Voice.OPEN →
     App.sendMessage this iv p M fields = Normal [(sock, M)]) ∧
  sharedKey new_CryptoManager = None ∧
  (∀ ecdh, sharedKey (initializeKeys ecdh None new_CryptoManager) = None).
Proof.
  split_and!.
  - intros Hk. unfold encryptMessage, decryptMessage. by rewrite Hk.
  - intros k Hk Henc. unfold encryptMessage. by rewrite Hk, Henc.
  - intros p sock fields Henc HM Hwss Hopen. unfold App.sendMessage.
    destruct M as [|u M']; [done|]. rewrite Henc. simpl.
    unfold App.get. rewrite Hwss. simpl. rewrite Hopen.
    by rewrite bool_decide_true.
  - done.
  - by intros [kp|].
Qed.

End CryptoManager.

Lemma iv0_bytes : Forall is_byte iv0.
Proof.
  unfold iv0. repeat (apply Forall_cons_2; [unfold is_byte; lia|]).
  apply Forall_nil_2.
Qed.

(** The text "hi" crosses the channel. *)
Lemma encrypt_decrypt_round_trip_witness :
  encryptMessage toy_manager iv0 [104; 105] =
    Normal (base64_encode (iv0 ++ [38; 104; 105])) ∧
  decryptMessage toy_manager (base64_encode (iv0 ++ [38; 104; 105])) =
    Normal [104; 105].
Proof.
  apply (encrypt_decrypt_round_trip toy_manager 7 iv0 [104; 105]
           [38; 104; 105]).
  - reflexivity.
  - reflexivity.
  - exact iv0_bytes.
  - reflexivity.
  - discriminate.
  - reflexivity.
  - vm_compute. discriminate.
Defined.

(** The text U+FEFF "hi" does not: what comes back is "hi". *)
Lemma leading_bom_is_not_recovered :
  ∃ t, encryptMessage toy_manager iv0 [0xFEFF; 104; 105] = Normal t ∧
       decryptMessage toy_manager t = Normal [104; 105] ∧
       decryptMessage toy_manager t ≠ Normal [0xFEFF; 104; 105].
Proof.
  eexists. split; [reflexivity|]. split; [reflexivity|]. discriminate.
Qed.

(** One bit of the transport string of "hi" is flipped: [decryptMessage]
    does not throw, it returns the corrupted string. *)
Lemma corrupted_transport_is_returned :
  ∃ t C, encryptMessage toy_manager iv0 [104; 105] = Normal t ∧
         single_bit_corruption t C ∧
         decryptMessage toy_manager C = Normal C.
Proof.
  eexists. exists (flip_bit 3 0 (base64_encode (iv0 ++ [38; 104; 105]))).
  split; [reflexivity|]. split.
  - exists 3%nat, 0. split; [simpl; lia|]. split; [lia|reflexivity].
  - reflexivity.
Qed.

End CryptoSpec.

Module VoiceSpec.

Import Js Crypto Voice.

Section VoiceManager.

Context `{S : SubtleCrypto} `{E : Engine}.
Variable JSON_stringify : signal → jsstring.

Local Abbreviation Eff := (@Eff S).

(** *** Steps that return normally *)

Lemma transforms_emit e : transforms id (emit e).
Proof. intros w. by exists [e]. Qed.

Lemma transforms_assign f : transforms f (assign f).
Proof. intros w. exists []. unfold assign. by rewrite app_nil_r. Qed.

Lemma transforms_ret : transforms id (eff_ret tt).
Proof. intros w. exists []. unfold eff_ret. rewrite app_nil_r. by destruct w. Qed.

Lemma transforms_seq f g (m k : Eff unit) :
  transforms f m → transforms g k → transforms (g ∘ f) (eff_bind m (λ _, k)).
Proof.
  intros Hm Hk w. destruct (Hm w) as [tr1 H1]. unfold eff_bind. rewrite H1.
  destruct (Hk (mkWorld (f (this w)) (onicecandidate w) (trace w ++ tr1)))
    as [tr2 H2].
  rewrite H2. simpl. exists (tr1 ++ tr2). by rewrite app_assoc.
Qed.

Lemma transforms_ext f g (m : Eff unit) :
  (∀ t, f t = g t) → transforms f m → transforms g m.
Proof. intros Hfg Hm w. destruct (Hm w) as [tr H]. exists tr. by rewrite <- Hfg. Qed.

Lemma transforms_forEach {A} (l : list A) (f : A → Eff unit) :
  (∀ x, transforms id (f x)) → transforms id (forEach l f).
Proof.
  intros Hf. induction l as [|x l IH]; simpl.
  - apply transforms_ret.
  - apply (transforms_seq id id); auto.
Qed.

(** [if (x) { x.m(..) }]: the guarded member access does not throw. *)
Lemma transforms_guarded {A} (o : option A) (body : A → Eff unit) :
  (∀ x, transforms id (body x)) →
  transforms id (when (is_object o) (eff_bind (deref o) body)).
Proof.
  intros Hbody. destruct o as [x|]; simpl.
  - intros w. destruct (Hbody x w) as [tr H]. exists tr.
    unfold eff_bind, eff_ret. by rewrite H.
  - apply transforms_ret.
Qed.

(** [if (this.x) { .. this.x.m(..) ..; this.x = null }] *)
Lemma transforms_release {A} (field : VoiceManager → option A)
    (set : option A → VoiceManager → VoiceManager) (body : A → Eff unit) :
  (∀ t, field t = None → set None t = t) →
  (∀ x, transforms id (body x)) →
  transforms (set None)
    (eff_bind (read field) (λ v,
       when (is_object v)
         (eff_bind (deref v) (λ x,
            eff_bind (body x) (λ _, assign (set None)))))).
Proof.
  intros Hset Hbody w. unfold eff_bind at 1. unfold read.
  destruct (field (this w)) as [x|] eqn:Hx; simpl.
  - unfold eff_bind, eff_ret. destruct (Hbody x w) as [tr H]. rewrite H.
    exists tr. unfold assign. done.
  - exists []. unfold eff_ret. rewrite app_nil_r, Hset by done. by destruct w.
Qed.

Lemma transforms_stopCallTimer p :
  transforms (λ t, if is_timer (callTimer t) then set_callTimer None t else t)
             (stopCallTimer p).
Proof.
  unfold stopCallTimer.
  eapply transforms_ext;
    [|apply (transforms_seq
               (λ t, if is_timer (callTimer t) then set_callTimer None t
                     else t) id)].
  - done.
  - intros w. unfold eff_bind at 1. unfold read.
    destruct (callTimer (this w)) as [n|] eqn:Hn; simpl.
    + destruct (n =? 0)%nat; simpl.
      * exists []. unfold eff_ret. rewrite app_nil_r. by destruct w.
      * exists [clear_interval n]. done.
    + exists []. unfold eff_ret. rewrite app_nil_r. by destruct w.
  - apply transforms_guarded. intros el. apply transforms_emit.
Qed.

Lemma transforms_endCall p : transforms ended (endCall p).
Proof.
  unfold endCall. eapply transforms_ext; cycle 1.
  - eapply transforms_seq.
    { apply (transforms_release localStream set_localStream).
      - by intros [] [= ->].
      - intros stream. apply transforms_forEach. intros track.
        apply (transforms_seq id id); apply transforms_emit. }
    eapply transforms_seq.
    { apply (transforms_release remoteStream set_remoteStream).
      - by intros [] [= ->].
      - intros stream. apply transforms_forEach. intros track.
        apply transforms_emit. }
    eapply transforms_seq.
    { apply (transforms_release dataChannel set_dataChannel).
      - by intros [] [= ->].
      - intros channel. apply transforms_emit. }
    eapply transforms_seq.
    { apply (transforms_release peerConnection set_peerConnection).
      - by intros [] [= ->].
      - intros pc. apply transforms_emit. }
    eapply transforms_seq; [apply transforms_assign|].
    eapply transforms_seq; [apply transforms_assign|].
    eapply transforms_seq; [apply transforms_stopCallTimer|].
    eapply transforms_seq.
    { apply transforms_guarded. intros el. apply transforms_emit. }
    eapply transforms_seq.
    { apply transforms_guarded. intros el. apply transforms_emit. }
    destruct (has_gc p); simpl; [apply transforms_emit|apply transforms_ret].
  - intros [ls rs pc dc ? ? ? ? ct ? ? ?]. unfold ended. simpl.
    unfold is_timer. by destruct ct as [[|n]|]; compute.
Qed.

(** C7. From any state of the negotiator, [endCall] returns without
    throwing and leaves it idle: no call is active and the two streams, the
    data channel and the peer connection are [null]. A second [endCall]
    right after does not throw either and leaves the fields as they are. *)
Theorem endCall_is_safe_and_idempotent p p' w :
  ∃ w1, endCall p w = (Normal tt, w1) ∧
    isCallActive (this w1) = false ∧
    localStream (this w1) = None ∧ remoteStream (this w1) = None ∧
    dataChannel (this w1) = None ∧ peerConnection (this w1) = None ∧
    ∃ w2, endCall p' w1 = (Normal tt, w2) ∧ this w2 = this w1.
Proof.
  destruct (transforms_endCall p w) as [tr1 H1].
  eexists. split; [exact H1|]. simpl. split_and!; try done.
  destruct (transforms_endCall p'
              (mkWorld (ended (this w)) (onicecandidate w) (trace w ++ tr1)))
    as [tr2 H2].
  eexists. split; [exact H2|]. simpl.
  unfold ended. simpl. by destruct (callTimer (this w)) as [[|n]|].
Qed.

(** *** Steps that write to no socket *)

Lemma mute_ret {A} (a : A) : mute (eff_ret a).
Proof. intros w. split; [done|]. intros pc v Hv. by left. Qed.

Lemma mute_throw {A} e : mute (@throw S A e).
Proof. intros w. split; [done|]. intros pc v Hv. by left. Qed.

Lemma mute_await {A} (c : completion A) : mute (await c).
Proof. intros w. split; [done|]. intros pc v Hv. by left. Qed.

Lemma mute_read {A} (f : VoiceManager → A) : mute (read f).
Proof. intros w. split; [done|]. intros pc v Hv. by left. Qed.

Lemma mute_assign f : mute (assign f).
Proof. intros w. split; [done|]. intros pc v Hv. by left. Qed.

Lemma mute_deref {A} (o : option A) : mute (deref o).
Proof. destruct o; [apply mute_ret|apply mute_throw]. Qed.

Lemma mute_emit e : not_a_send e → mute (emit e).
Proof.
  intros He w. split; [|intros pc v Hv; by left].
  simpl. unfold sends. rewrite omap_app. simpl.
  destruct e; simpl; try done; by rewrite app_nil_r.
Qed.

Lemma mute_set_onicecandidate pc : mute (set_onicecandidate pc Null).
Proof.
  intros w. split; [done|]. intros pc' v. simpl. rewrite lookup_insert.
  case_decide; [intros [= <-]; by right|by left].
Qed.

Lemma mute_bind {A B} (m : Eff A) (k : A → Eff B) :
  mute m → (∀ a, mute (k a)) → mute (eff_bind m k).
Proof.
  intros Hm Hk w. unfold eff_bind. destruct (Hm w) as [H1 H2].
  destruct (m w) as [[a|e] w1]; simpl in *; [|done].
  destruct (Hk a w1) as [H3 H4]. split; [congruence|].
  intros pc v Hv. destruct (H4 pc v Hv) as [Hold|]; eauto.
Qed.

Lemma mute_try {A} (body : Eff A) (handler : exn → Eff A) :
  mute body → (∀ e, mute (handler e)) → mute (eff_try body handler).
Proof.
  intros Hm Hk w. unfold eff_try. destruct (Hm w) as [H1 H2].
  destruct (body w) as [[a|e] w1]; simpl in *; [done|].
  destruct (Hk e w1) as [H3 H4]. split; [congruence|].
  intros pc v Hv. destruct (H4 pc v Hv) as [Hold|]; eauto.
Qed.

Lemma mute_when b (m : Eff unit) : mute m → mute (when b m).
Proof. intros Hm. destruct b; [done|apply mute_ret]. Qed.

Lemma mute_forEach {A} (l : list A) (f : A → Eff unit) :
  (∀ x, mute (f x)) → mute (forEach l f).
Proof.
  intros Hf. induction l as [|x l IH]; simpl; [apply mute_ret|].
  apply mute_bind; auto.
Qed.

(** The guard [ws && ws.readyState === WebSocket.OPEN] on [null]. *)
Lemma mute_send_if_open p data : mute (send_if_open p Null data).
Proof. apply mute_ret. Qed.

Ltac mute :=
  repeat first
    [ apply mute_send_if_open | apply mute_set_onicecandidate
    | apply mute_ret | apply mute_throw | apply mute_await | apply mute_read
    | apply mute_assign | apply mute_deref
    | apply mute_emit; exact I
    | apply mute_when | apply mute_forEach; intros ?
    | apply mute_try; [|intros ?]
    | apply mute_bind; [|intros ?] ].

Lemma mute_on_icecandidate p candidate :
  mute (on_icecandidate JSON_stringify p Null candidate).
Proof. unfold on_icecandidate. mute. Qed.

(** [startCall] with no socket: called without one, or with
    [undefined]. *)
Lemma mute_startCall p isVideo ws :
  ws = Undefined ∨ ws = Null → mute (startCall JSON_stringify p isVideo ws).
Proof.
  intros Hws. unfold startCall.
  assert (default_to Null ws = Null) as -> by (by destruct Hws as [->| ->]).
  unfold startCallTimer, handleCallError. mute.
Qed.

End VoiceManager.

End VoiceSpec.

Module AppSpec.

Import Js Crypto Voice VoiceSpec.

(** [initializeElements] assigns the properties it lists and no other. *)
Lemma initializeElements_lookup p this name :
  name ∉ App.elements.*1 → App.initializeElements p this !! name = this !! name.
Proof.
  unfold App.initializeElements. generalize App.elements. intros l.
  revert this. induction l as [|fe l IH]; intros this Hname; [done|].
  apply not_elem_of_cons in Hname as [Hne Hname]. simpl.
  rewrite IH by done. by rewrite lookup_insert_ne.
Qed.

Lemma ws_not_an_element : "ws" ∉ App.elements.*1.
Proof.
  unfold App.elements. cbn [fmap list_fmap fst]. intros H.
  repeat (apply elem_of_cons in H as [H|H]; [discriminate|]).
  by apply elem_of_nil in H.
Qed.

(** No method of the application assigns the property [ws]. *)
Lemma reachable_ws_unassigned this : App.reachable this → this !! "ws" = None.
Proof.
  induction 1 as [p cm vm sock|S E stringify p message this w _ IH
                  |sock this _ IH|timer this _ IH|this _ IH|this _ IH].
  - unfold App.constructor, App.connectWebSocket.
    rewrite lookup_insert_ne, initializeElements_lookup
      by (done || apply ws_not_an_element).
    by repeat (rewrite lookup_insert_ne by done).
  - destruct message; simpl; try done; by rewrite lookup_insert_ne.
  - unfold App.connectWebSocket. by rewrite lookup_insert_ne.
  - unfold App.handleTyping.
    rewrite lookup_insert_ne by done. case_match; [done|].
    by rewrite lookup_insert_ne.
  - unfold App.typing_timeout. by rewrite lookup_insert_ne.
  - unfold App.leaveGroup. by rewrite lookup_insert_ne.
Qed.

(** C10. When the application handles [call_allowed], [startCall]
    receives [this.ws], a property that is never assigned: the negotiator
    writes nothing to a socket, the [onicecandidate] closure it installs
    captured [null], and no candidate gathered for the new peer connection
    is written to a socket either. *)
Theorem call_allowed_sends_no_signaling `{S : SubtleCrypto} `{E : Engine}
    (stringify : signal → list Z) p callType this w :
  App.reachable this →
  App.get "ws" this = Undefined ∧
  sends (trace
    (App.handleWebSocketMessage stringify p (Relay.call_allowed callType)
       this w).2.2) = sends (trace w) ∧
  (onicecandidate w !! new_RTCPeerConnection p = None →
   ∀ p' candidate,
     sends (trace
       (icecandidate stringify p' (new_RTCPeerConnection p) candidate
          (App.handleWebSocketMessage stringify p
             (Relay.call_allowed callType) this w).2.2).2) = sends (trace w)).
Proof.
  intros Hws%reachable_ws_unassigned.
  assert (App.get "ws" this = Undefined) as Hget
    by (unfold App.get; by rewrite Hws).
  split; [done|]. simpl. rewrite Hget.
  destruct (mute_startCall stringify p
              (Bool (String.eqb callType "video")) Undefined (or_introl eq_refl)
              w) as [Hsends Hice].
  split; [done|].
  intros Hfresh p' candidate. unfold icecandidate.
  set (w' := (startCall stringify p (Bool (String.eqb callType "video"))
                        Undefined w).2) in *.
  destruct (onicecandidate w' !! new_RTCPeerConnection p) as [v|] eqn:Hv;
    [|exact Hsends].
  destruct (Hice _ _ Hv) as [Hold| ->]; [congruence|].
  destruct (mute_on_icecandidate stringify p' candidate w') as [-> _].
  exact Hsends.
Qed.

(** The application right after its constructor, on a platform where
    every call succeeds. *)
Lemma call_allowed_sends_no_signaling_witness :
  sends (trace
    (App.handleWebSocketMessage (S := toy_subtle) (λ _, []) platform0
       (Relay.call_allowed "voice") (App.constructor platform0 0 1 2)
       world0).2.2) = sends (trace world0).
Proof.
  exact (proj1 (proj2
    (call_allowed_sends_no_signaling (S := toy_subtle) (λ _, [])
       platform0 "voice" (App.constructor platform0 0 1 2) world0
       (App.reach_constructor platform0 0 1 2)))).
Defined.

End AppSpec.

Module RelayExtra.

Import Relay RelaySpec.

(** A broadcast writes to members only. *)
Lemma broadcast_loop_members e ms M x d m :
  (d, m) ∈ broadcast_loop e ms M x →
  d ∈ ms ∧ Some d ≠ x ∧ readyState e d = 1 ∧ m = M.
Proof.
  induction ms as [|y ms IH]; simpl; [by rewrite elem_of_nil|].
  case_decide as Hy.
  - rewrite elem_of_cons. intros [[= -> ->]|Hin].
    + split; [apply list_elem_of_here|]. tauto.
    + destruct (IH Hin) as (? & ? & ? & ?).
      split; [by apply list_elem_of_further|]. tauto.
  - intros Hin. destruct (IH Hin) as (? & ? & ? & ?).
    split; [by apply list_elem_of_further|]. tauto.
Qed.

(** In a well-formed store a reference of a connection leads to a group. *)
Lemma wf_current_room st ws a :
  wf st → userGroup st !! ws = Some a → ∃ g, heap st !! a = Some g.
Proof.
  intros (_ & Hug & _) Hu. apply Hug in Hu.
  by apply lookup_lt_is_Some_2 in Hu as [g Hg]; exists g.
Qed.

(** X1. Whatever a connection sends, the relay writes only to that
    connection or to open members of the room the connection is in. *)
Theorem outputs_stay_in_room st e ws parsed d m :
  reachable st → (d, m) ∈ (on_message e ws parsed st).2 →
  d = ws ∨
  ∃ g, current_room st ws = Some g ∧ d ∈ members g ∧ d ≠ ws ∧
       readyState e d = 1.
Proof.
  intros Hst%reachable_wf Hin. destruct parsed as [msg|]; simpl in Hin.
  2:{ apply list_elem_of_singleton in Hin as [= -> _]. by left. }
  unfold on_message in Hin. repeat case_decide.
  - simpl in Hin. apply list_elem_of_singleton in Hin as [= -> _]. by left.
  - unfold on_join_group in Hin. repeat case_match; simpl in Hin;
      try (by apply elem_of_nil in Hin);
      apply list_elem_of_singleton in Hin as [= -> _]; by left.
  - unfold on_leave_group in Hin. repeat case_match; simpl in Hin;
      try (by apply elem_of_nil in Hin);
      apply list_elem_of_singleton in Hin as [= -> _]; by left.
  - unfold on_chat_message in Hin.
    destruct (userGroup st !! ws) as [a|] eqn:Hu; simpl in Hin.
    + destruct (heap st !! a) as [g|] eqn:Hg; simpl in Hin;
        [|by apply elem_of_nil in Hin].
      apply broadcast_loop_members in Hin as (? & ? & ? & ?).
      right. exists g. unfold current_room. rewrite Hu. simpl.
      split_and!; try done. congruence.
    + apply list_elem_of_singleton in Hin as [= -> _]. by left.
  - unfold on_start_call in Hin. case_match; simpl in Hin;
      apply list_elem_of_singleton in Hin as [= -> _]; by left.
  - unfold on_encrypted_signaling in Hin.
    destruct (userGroup st !! ws) as [a|] eqn:Hu; simpl in Hin;
      [|by apply elem_of_nil in Hin].
    destruct (heap st !! a) as [g|] eqn:Hg; simpl in Hin;
      [|by apply elem_of_nil in Hin].
    apply broadcast_loop_members in Hin as (? & ? & ? & ?).
    right. exists g. unfold current_room. rewrite Hu. simpl.
    split_and!; try done. congruence.
  - simpl in Hin. apply list_elem_of_singleton in Hin as [= -> _]. by left.
Qed.

Lemma outputs_stay_in_room_witness :
  1 = 0 ∨
  ∃ g, current_room two_in_room 0 = Some g ∧ 1 ∈ members g ∧ 1 ≠ 0 ∧
       readyState env0 1 = 1.
Proof.
  apply (outputs_stay_in_room two_in_room env0 0 (Some (msg "chat_message"))
           1 (chat_message "" "u" 0)).
  - apply reachable_run, reachable_init.
  - apply list_elem_of_here.
Defined.

(** X2. The sender of a chat or signaling message gets nothing back: a
    connection in a room that sends [chat_message] or [encrypted_signaling]
    is written nothing, and the relay state stays as it is. *)
Theorem sender_gets_no_echo st e ws m :
  reachable st → is_Some (userGroup st !! ws) →
  type m = "chat_message" ∨ type m = "encrypted_signaling" →
  (on_message e ws (Some m) st).1 = st ∧
  ∀ m', (ws, m') ∉ (on_message e ws (Some m) st).2.
Proof.
  intros Hst%reachable_wf [a Hu] Hty.
  destruct (wf_current_room st ws a Hst Hu) as [g Hg].
  destruct Hty as [Hty|Hty]; dispatch Hty.
  - unfold on_chat_message. rewrite Hu, Hg. split; [done|].
    intros m' Hin. by apply broadcast_loop_members in Hin as (_ & ? & _).
  - unfold on_encrypted_signaling. rewrite Hu, Hg. split; [done|].
    intros m' Hin. by apply broadcast_loop_members in Hin as (_ & ? & _).
Qed.

Lemma sender_gets_no_echo_witness :
  (on_message env0 0 (Some (msg "chat_message")) two_in_room).1 = two_in_room ∧
  ∀ m', (0, m') ∉ (on_message env0 0 (Some (msg "chat_message")) two_in_room).2.
Proof.
  apply (sender_gets_no_echo two_in_room env0 0 (msg "chat_message")).
  - apply reachable_run, reachable_init.
  - by exists 0.
  - by left.
Defined.

Lemma set_add_other ws d g :
  d ≠ ws → d ∈ members (add ws g) ↔ d ∈ members g.
Proof.
  intros Hd. simpl. rewrite elem_of_set_add. split; [by intros [?|?]|auto].
Qed.

Lemma set_delete_other ws d g :
  d ≠ ws → d ∈ members (remove ws g) ↔ d ∈ members g.
Proof. intros Hd. simpl. rewrite elem_of_set_delete. tauto. Qed.

(** Membership after one object of the store was altered. *)
Lemma member_of_alter f a st gs ug b d :
  (∀ g, d ∈ members (f g) ↔ d ∈ members g) →
  member_of (mkState (alter f a (heap st)) gs ug) b d ↔ member_of st b d.
Proof.
  intros Hf. unfold member_of. simpl. rewrite list_lookup_alter.
  case_decide as Hab; [|done]. subst b.
  destruct (heap st !! a) as [g|]; simpl.
  - split; intros (g' & [= <-] & Hd); eexists; (split; [done|]); by apply Hf.
  - split; intros (g' & [=] & _).
Qed.

Lemma member_of_snoc st g gs ug b d :
  d ∉ members g →
  member_of (mkState (heap st ++ [g]) gs ug) b d ↔ member_of st b d.
Proof.
  intros Hd. unfold member_of. simpl. split.
  - intros (g' & Hl & Hin). apply lookup_app_Some in Hl as [Hl|[_ Hl]]; [eauto|].
    apply list_lookup_singleton_Some in Hl as [_ <-]. done.
  - intros (g' & Hl & Hin). exists g'. split; [|done].
    by apply lookup_app_l_Some.
Qed.

Lemma step_other_connection st ev d :
  d ≠ actor ev →
  userGroup (step ev st) !! d = userGroup st !! d ∧
  ∀ a, member_of (step ev st) a d ↔ member_of st a d.
Proof.
  intros Hd. destruct ev as [e ws [m|]|ws]; simpl in Hd; simpl; [|done|].
  - unfold on_message. repeat case_decide; try done.
    + unfold on_create_group. simpl. rewrite lookup_insert_ne by done.
      split; [done|]. intros a. apply member_of_snoc. simpl.
      unfold set_add. simpl. by intros ->%list_elem_of_singleton.
    + unfold on_join_group.
      destruct (groups st !! groupId m) as [b|] eqn:E.
      * rewrite E. simpl. rewrite lookup_insert_ne by done. split; [done|].
        intros a. apply member_of_alter. intros g'. by apply set_add_other.
      * rewrite lookup_insert_eq. simpl. rewrite lookup_insert_ne by done.
        split; [done|]. intros a.
        rewrite <- (member_of_snoc st (mkGroup (groupId m) [])
                      (groups st) (userGroup st) a d)
          by (simpl; apply not_elem_of_nil).
        apply (member_of_alter _ _
                 (mkState (heap st ++ [mkGroup (groupId m) []])
                          (groups st) (userGroup st))).
        intros g'. by apply set_add_other.
    + unfold on_leave_group. destruct (userGroup st !! ws) as [b|]; [|done].
      destruct (heap st !! b); [|done]. simpl.
      rewrite lookup_delete_ne by done. split; [done|].
      intros a. apply member_of_alter. intros g'. by apply set_delete_other.
    + unfold on_chat_message. by repeat case_match.
    + unfold on_start_call. by repeat case_match.
    + unfold on_encrypted_signaling. by repeat case_match.
  - unfold on_close. destruct (userGroup st !! ws) as [b|]; [|done].
    split; [done|]. intros a. apply member_of_alter. intros g'.
    by apply set_delete_other.
Qed.



(** One event of a connection that does not close keeps it in the room it
    refers to. *)
Lemma step_in_own_room st ev ws :
  wf st → ev ≠ Close ws →
  (∀ a, userGroup st !! ws = Some a → member_of st a ws) →
  ∀ a, userGroup (step ev st) !! ws = Some a → member_of (step ev st) a ws.
Proof.
  intros Hwf Hev Hin a.
  destruct (decide (ws = actor ev)) as [->|Hne].
  2:{ destruct (step_other_connection st ev ws Hne) as [-> Hm].
      intros Hu. apply Hm. auto. }
  destruct ev as [e ws [m|]|ws]; simpl; [|by auto|done].
  pose proof Hwf as (_ & Hug & Hgs).
  unfold on_message. repeat case_decide; try (by auto).
  - unfold on_create_group, member_of. simpl. rewrite lookup_insert_eq.
    intros [= <-]. eexists. split; [by apply list_lookup_middle|].
    simpl. apply list_elem_of_here.
  - unfold on_join_group.
    destruct (groups st !! groupId m) as [b|] eqn:E.
    + rewrite E. unfold member_of. simpl. rewrite lookup_insert_eq.
      intros [= <-]. rewrite list_lookup_alter_eq.
      destruct (lookup_lt_is_Some_2 (heap st) b (Hgs _ _ E)) as [g ->].
      eexists. split; [done|]. apply elem_of_set_add. by left.
    + rewrite lookup_insert_eq. unfold member_of. simpl.
      rewrite lookup_insert_eq. intros [= <-].
      rewrite list_lookup_alter_eq, list_lookup_middle by done.
      eexists. split; [done|]. apply list_elem_of_here.
  - unfold on_leave_group. destruct (userGroup st !! ws) as [b|] eqn:Hu;
      [|simpl; by rewrite Hu].
    destruct (heap st !! b) eqn:Hb; [|apply lookup_ge_None in Hb;
      apply Hug in Hu; lia].
    simpl. by rewrite lookup_delete_eq.
  - unfold on_chat_message. repeat case_match; by auto.
  - unfold on_start_call. repeat case_match; by auto.
  - unfold on_encrypted_signaling. repeat case_match; by auto.
Qed.

Lemma run_in_own_room evs st ws :
  wf st → Close ws ∉ evs →
  (∀ a, userGroup st !! ws = Some a → member_of st a ws) →
  ∀ a, userGroup (run evs st) !! ws = Some a → member_of (run evs st) a ws.
Proof.
  revert st. induction evs as [|ev evs IH]; intros st Hwf Hev Hin; [done|].
  apply not_elem_of_cons in Hev as [Hne Hev]. simpl. apply IH.
  - by apply wf_step.
  - done.
  - apply step_in_own_room; [done|congruence|done].
Qed.

(** X4. A connection whose transport has not closed is a member of the
    room it is in: after any events from the start of the relay, none of
    them the close of [ws], the group [userGroup] of [ws] refers to lists
    [ws]. *)
Theorem live_connection_is_member evs ws a :
  Close ws ∉ evs → userGroup (run evs init) !! ws = Some a →
  member_of (run evs init) a ws.
Proof.
  intros Hev. apply run_in_own_room; [|done|].
  - apply reachable_wf, reachable_init.
  - intros b. simpl. by rewrite lookup_empty.
Qed.

Lemma live_connection_is_member_witness : member_of two_in_room 0 1.
Proof.
  apply (live_connection_is_member
           [Message env0 0 (Some (join "r")); Message env0 1 (Some (join "r"))]
           1 0).
  - intros H. repeat (apply elem_of_cons in H as [H|H]; [discriminate|]).
    by apply elem_of_nil in H.
  - reflexivity.
Defined.

(** A close takes members away only. *)
Lemma member_of_on_close st c a d :
  member_of (on_close c st) a d → member_of st a d.
Proof.
  unfold on_close. destruct (userGroup st !! c) as [b|]; [|done].
  unfold member_of. simpl. rewrite list_lookup_alter.
  case_decide as Hab; [|done]. subst b.
  destruct (heap st !! a) as [g|]; simpl; [|by intros (g' & [=] & _)].
  intros (g' & [= <-] & Hin). exists g. split; [done|].
  simpl in Hin. apply elem_of_set_delete in Hin. tauto.
Qed.

(** A connection that is not in a group object does not come into it
    while no frame of it arrives. *)
Lemma run_not_member evs st a ws :
  ws ∉ senders evs → ¬ member_of st a ws → ¬ member_of (run evs st) a ws.
Proof.
  revert st. induction evs as [|ev evs IH]; intros st Hs Hout; [done|].
  simpl. apply IH.
  - destruct ev; unfold senders in *; simpl in Hs; [|done].
    by apply not_elem_of_cons in Hs as [_ ?].
  - destruct ev as [e c p|c].
    + assert (ws ≠ c) as Hne.
      { intros ->. apply Hs. unfold senders. simpl. apply list_elem_of_here. }
      destruct (step_other_connection st (Message e c p) ws Hne) as [_ Hm].
      by rewrite Hm.
    + simpl. intros Hin. by apply Hout, (member_of_on_close st c).
Qed.

(** X5. When the transport of a connection closes, the connection is
    removed from the member set of the room it is in. Whatever events
    follow, as long as no frame arrives from the closed connection, it is
    not in that member set again, and no [chat_message] or
    [encrypted_signaling] that a member of the room sends is written to
    it. *)
Theorem close_removes_from_current_room st ws a g evs :
  userGroup st !! ws = Some a → heap st !! a = Some g →
  ws ∉ senders evs →
  heap (on_close ws st) !! a = Some (remove ws g) ∧
  ¬ member_of (run evs (on_close ws st)) a ws ∧
  ∀ e c m out,
    userGroup (run evs (on_close ws st)) !! c = Some a →
    type m = "chat_message" ∨ type m = "encrypted_signaling" →
    (ws, out) ∉ (on_message e c (Some m) (run evs (on_close ws st))).2.
Proof.
  intros Hu Hg Hs.
  assert (heap (on_close ws st) !! a = Some (remove ws g)) as Hrm.
  { unfold on_close. rewrite Hu. simpl. by rewrite list_lookup_alter_eq, Hg. }
  assert (¬ member_of (run evs (on_close ws st)) a ws) as Hout.
  { apply run_not_member; [done|]. unfold member_of. rewrite Hrm.
    intros (g' & [= <-] & Hin). simpl in Hin.
    apply elem_of_set_delete in Hin. tauto. }
  split_and!; [done..|].
  intros e c m out Hc Hty Hin. apply Hout.
  destruct Hty as [Hty|Hty]; revert Hin; dispatch Hty.
  - unfold on_chat_message. rewrite Hc.
    destruct (heap (run evs (on_close ws st)) !! a) as [g'|] eqn:Hg';
      simpl; [|by rewrite elem_of_nil].
    intros Hin%broadcast_loop_members. exists g'. tauto.
  - unfold on_encrypted_signaling. rewrite Hc.
    destruct (heap (run evs (on_close ws st)) !! a) as [g'|] eqn:Hg';
      simpl; [|by rewrite elem_of_nil].
    intros Hin%broadcast_loop_members. exists g'. tauto.
Qed.

(** Of two connections in a room the first closes, and the second sends a
    chat message. *)
Lemma close_removes_from_current_room_witness :
  heap (on_close 0 two_in_room) !! 0 = Some (remove 0 (mkGroup "r" [0; 1])) ∧
  ¬ member_of (run [Message env0 1 (Some (msg "chat_message"))]
                   (on_close 0 two_in_room)) 0 0 ∧
  ∀ e c m out,
    userGroup (run [Message env0 1 (Some (msg "chat_message"))]
                   (on_close 0 two_in_room)) !! c = Some 0 →
    type m = "chat_message" ∨ type m = "encrypted_signaling" →
    (0, out) ∉ (on_message e c (Some m)
                  (run [Message env0 1 (Some (msg "chat_message"))]
                       (on_close 0 two_in_room))).2.
Proof.
  apply (close_removes_from_current_room two_in_room 0 0
           (mkGroup "r" [0; 1]) [Message env0 1 (Some (msg "chat_message"))]);
    [reflexivity..|].
  unfold senders. simpl. by intros [=]%list_elem_of_singleton.
Defined.

Lemma ids_agree_alter f a st gs ug :
  (∀ g, id (f g) = id g) →
  (∀ k b g, gs !! k = Some b → heap st !! b = Some g → id g = k) →
  ids_agree (mkState (alter f a (heap st)) gs ug).
Proof.
  intros Hf Hid k b g. simpl. rewrite list_lookup_alter. intros Hk.
  case_decide; [|by eauto]. subst b.
  destruct (heap st !! a) as [g0|] eqn:Ha; simpl; [|done].
  intros [= <-]. rewrite Hf. eauto.
Qed.

Lemma ids_agree_step ev st : wf st → ids_agree st → ids_agree (step ev st).
Proof.
  intros (_ & _ & Hgs) Hid. destruct ev as [e ws [m|]|ws]; simpl; [|done|].
  - unfold on_message. repeat case_decide; try done.
    + unfold on_create_group. intros k b g. simpl. rewrite lookup_insert.
      case_decide as Hk.
      * intros [= <-]. rewrite list_lookup_middle by done. by intros [= <-].
      * intros Hb. rewrite lookup_app_l by eauto. eauto.
    + unfold on_join_group.
      destruct (groups st !! groupId m) as [b|] eqn:E.
      * rewrite E. simpl. by apply ids_agree_alter.
      * rewrite lookup_insert_eq. simpl.
        apply (ids_agree_alter _ _
                 (mkState (heap st ++ [mkGroup (groupId m) []])
                          (groups st) (userGroup st))); [done|].
        intros k b g. simpl. rewrite lookup_insert. case_decide as Hk.
        -- intros [= <-]. rewrite list_lookup_middle by done. by intros [= <-].
        -- intros Hb. rewrite lookup_app_l by eauto. eauto.
    + unfold on_leave_group. destruct (userGroup st !! ws) as [b|]; [|done].
      destruct (heap st !! b); [|done]. simpl. by apply ids_agree_alter.
    + unfold on_chat_message. by repeat case_match.
    + unfold on_start_call. by repeat case_match.
    + unfold on_encrypted_signaling. by repeat case_match.
  - unfold on_close. destruct (userGroup st !! ws) as [b|]; [|done].
    by apply ids_agree_alter.
Qed.

(** X6. The room found under an identifier carries that identifier, in
    every state of the relay. *)
Theorem room_carries_its_identifier st k g :
  reachable st → room st k = Some g → id g = k.
Proof.
  intros Hst. unfold room.
  assert (ids_agree st) as Hid.
  { induction Hst as [|st ev Hst IH]; [by intros k' b g'|].
    apply ids_agree_step; [by apply reachable_wf|done]. }
  destruct (groups st !! k) as [a|] eqn:Hk; [|done]. simpl. eauto.
Qed.

Lemma room_carries_its_identifier_witness : id (mkGroup "r" [0; 1]) = "r".
Proof.
  apply (room_carries_its_identifier two_in_room "r" (mkGroup "r" [0; 1])).
  - apply reachable_run, reachable_init.
  - reflexivity.
Defined.

(** After [leave_group] the connection refers to no room. *)
Lemma userGroup_after_leave st ws :
  wf st → userGroup (on_leave_group ws st).1 !! ws = None.
Proof.
  intros (_ & Hug & _). unfold on_leave_group.
  destruct (userGroup st !! ws) as [a|] eqn:Hu; [|done].
  destruct (heap st !! a) eqn:Ha; simpl; [by rewrite lookup_delete_eq|].
  apply lookup_ge_None in Ha. apply Hug in Hu. lia.
Qed.

(** X7. Once a connection has left its room, its [chat_message] and
    [start_call] are refused with the error reply, and nothing changes. *)
Theorem after_leave_not_in_a_group st e e' ws m m' :
  reachable st → type m = "leave_group" →
  type m' = "chat_message" ∨ type m' = "start_call" →
  on_message e' ws (Some m') (on_message e ws (Some m) st).1 =
    ((on_message e ws (Some m) st).1, [(ws, error "Not in a group")]).
Proof.
  intros Hst%reachable_wf Hty Hty'.
  rewrite (on_message_leave e ws m st) by done.
  pose proof (userGroup_after_leave st ws Hst) as Hu.
  destruct Hty' as [Hty'|Hty']; dispatch Hty'.
  - unfold on_chat_message. by rewrite Hu.
  - unfold on_start_call. by rewrite Hu.
Qed.

Lemma after_leave_not_in_a_group_witness :
  on_message env0 0 (Some (msg "start_call"))
    (on_message env0 0 (Some (msg "leave_group")) two_in_room).1 =
    ((on_message env0 0 (Some (msg "leave_group")) two_in_room).1,
     [(0, error "Not in a group")]).
Proof.
  apply (after_leave_not_in_a_group two_in_room env0 env0 0
           (msg "leave_group") (msg "start_call")).
  - apply reachable_run, reachable_init.
  - reflexivity.
  - by right.
Defined.

(** X8. [create_group] answers the creator alone with the new
    identifier, registers a new room under it and makes it the creator's
    current room, with the creator as its only member. *)
Theorem create_group_sole_member st e ws m :
  type m = "create_group" →
  (on_message e ws (Some m) st).2 = [(ws, group_created (uuidv4 e))] ∧
  room (on_message e ws (Some m) st).1 (uuidv4 e) =
    Some (mkGroup (uuidv4 e) [ws]) ∧
  current_room (on_message e ws (Some m) st).1 ws =
    Some (mkGroup (uuidv4 e) [ws]).
Proof.
  intros Hty. dispatch Hty. unfold on_create_group, room, current_room.
  simpl. rewrite !lookup_insert_eq. simpl.
  by rewrite list_lookup_middle.
Qed.

Lemma create_group_sole_member_witness :
  (on_message env0 5 (Some (msg "create_group")) two_in_room).2 =
    [(5, group_created "g")] ∧
  room (on_message env0 5 (Some (msg "create_group")) two_in_room).1 "g" =
    Some (mkGroup "g" [5]) ∧
  current_room (on_message env0 5 (Some (msg "create_group")) two_in_room).1 5 =
    Some (mkGroup "g" [5]).
Proof.
  apply (create_group_sole_member two_in_room env0 5 (msg "create_group")).
  reflexivity.
Defined.

Lemma alter_fixed {A} (f : A → A) a (l : list A) x :
  l !! a = Some x → f x = x → alter f a l = l.
Proof.
  intros Hl Hf. apply list_eq. intros i. rewrite list_lookup_alter.
  case_decide; [|done]. subst i. by rewrite Hl; simpl; rewrite Hf.
Qed.

Lemma on_join_group_existing ws m st b :
  groups st !! groupId m = Some b →
  on_join_group ws m st =
    (mkState (alter (add ws) b (heap st)) (groups st)
             (<[ws := b]> (userGroup st)),
     [(ws, joined_group (groupId m))]).
Proof. intros E. unfold on_join_group. by rewrite E, E. Qed.

Lemma on_join_group_new ws m st :
  groups st !! groupId m = None →
  on_join_group ws m st =
    (mkState (alter (add ws) (length (heap st))
                    (heap st ++ [mkGroup (groupId m) []]))
             (<[groupId m := length (heap st)]> (groups st))
             (<[ws := length (heap st)]> (userGroup st)),
     [(ws, joined_group (groupId m))]).
Proof. intros E. unfold on_join_group. by rewrite E, lookup_insert_eq. Qed.

Lemma add_member ws g : ws ∈ members g → add ws g = g.
Proof.
  intros Hin. destruct g as [i ms]. unfold add, set_add. simpl in *.
  by rewrite decide_True.
Qed.

(** X9. Joining the room one is already in changes nothing: a second
    [join_group] for the same identifier is answered like the first and
    leaves the relay as the first left it. *)
Theorem join_group_twice st e e' ws m :
  reachable st → type m = "join_group" →
  on_message e' ws (Some m) (on_message e ws (Some m) st).1 =
    ((on_message e ws (Some m) st).1, [(ws, joined_group (groupId m))]).
Proof.
  intros Hst%reachable_wf Hty. rewrite !on_message_join by done.
  destruct Hst as (_ & _ & Hgs).
  destruct (groups st !! groupId m) as [b|] eqn:E.
  - rewrite (on_join_group_existing ws m st b E). simpl.
    rewrite (on_join_group_existing ws m _ b) by done. simpl.
    destruct (lookup_lt_is_Some_2 (heap st) b (Hgs _ _ E)) as [g Hg].
    rewrite insert_insert_eq.
    rewrite (alter_fixed (add ws) b _ (add ws g)); [done| |].
    + by rewrite list_lookup_alter_eq, Hg.
    + apply add_member, elem_of_set_add. by left.
  - rewrite (on_join_group_new ws m st E). simpl.
    rewrite (on_join_group_existing ws m _ (length (heap st)))
      by (simpl; apply lookup_insert_eq).
    simpl. rewrite insert_insert_eq.
    rewrite (alter_fixed (add ws) (length (heap st)) _
               (add ws (mkGroup (groupId m) []))); [done| |].
    + by rewrite list_lookup_alter_eq, list_lookup_middle.
    + apply add_member, elem_of_set_add. by left.
Qed.

Lemma join_group_twice_witness :
  on_message env0 0 (Some (join "A")) (on_message env0 0 (Some (join "A")) init).1 =
    ((on_message env0 0 (Some (join "A")) init).1, [(0, joined_group "A")]).
Proof.
  apply (join_group_twice init env0 env0 0 (join "A")).
  - apply reachable_init.
  - reflexivity.
Defined.

Lemma broadcast_loop_delivers e ms M x d :
  d ∈ ms → Some d ≠ x → readyState e d = 1 →
  (d, M) ∈ broadcast_loop e ms M x.
Proof.
  intros Hd Hx Hopen. induction ms as [|y ms IH]; [by apply elem_of_nil in Hd|].
  simpl. apply elem_of_cons in Hd as [<-|Hd].
  - rewrite decide_True by done. apply list_elem_of_here.
  - case_decide; [apply list_elem_of_further|]; auto.
Qed.

(** X10. A connection that joins the room another connection is in
    receives the chat messages that connection sends from then on, as long
    as its socket is open, tagged with the sender's identifier. *)
Theorem joined_member_receives_chat st e e' c ws a m m' :
  reachable st → userGroup st !! c = Some a →
  groups st !! groupId m = Some a → c ≠ ws →
  type m = "join_group" → type m' = "chat_message" →
  readyState e' ws = 1 →
  (ws, chat_message (content m') (userId e' c) (now e'))
    ∈ (on_message e' c (Some m') (on_message e ws (Some m) st).1).2.
Proof.
  intros Hst%reachable_wf Hu Hk Hne Hty Hty' Hopen.
  rewrite (on_message_join e ws m st) by done. dispatch Hty'.
  destruct (wf_current_room st c a Hst Hu) as [g Hg].
  rewrite (on_join_group_existing ws m st a Hk).
  unfold on_chat_message. cbn [fst userGroup heap].
  rewrite lookup_insert_ne, Hu by done.
  rewrite list_lookup_alter_eq, Hg. simpl.
  apply broadcast_loop_delivers; [|congruence|done].
  apply elem_of_set_add. by left.
Qed.

Lemma joined_member_receives_chat_witness :
  (1, chat_message "" "u" 0)
    ∈ (on_message env0 0 (Some (msg "chat_message"))
         (on_message env0 1 (Some (join "A")) joined_A).1).2.
Proof.
  apply (joined_member_receives_chat joined_A env0 env0 0 1 0 (join "A")
           (msg "chat_message")); try reflexivity.
  - apply reachable_run, reachable_init.
  - discriminate.
Defined.

End RelayExtra.

Module CryptoExtra.

Import Js Crypto JsSpec CryptoSpec.
Local Open Scope Z_scope.

(** Two hexadecimal digits per byte. *)
Lemma hex_byte b :
  is_byte b →
  padStart 2 48 (toString16 b) = [hex_digit (b / 16); hex_digit (b mod 16)].
Proof.
  unfold is_byte, toString16, padStart. intros Hb.
  destruct (Z.ltb_spec b 16); [|done]. simpl.
  rewrite Z.div_small, Z.mod_small by lia. done.
Qed.

Lemma hex_digit_range n : 0 ≤ n < 16 → is_hex_digit (hex_digit n).
Proof. unfold is_hex_digit, hex_digit. intros Hn. zcases; lia. Qed.

Lemma hex_digit_inj m n :
  0 ≤ m < 16 → 0 ≤ n < 16 → hex_digit m = hex_digit n → m = n.
Proof. unfold hex_digit. intros Hm Hn. zcases; lia. Qed.

Lemma hex_string_cons b bs :
  is_byte b →
  hex_string (b :: bs) =
    hex_digit (b / 16) :: hex_digit (b mod 16) :: hex_string bs.
Proof.
  intros Hb. unfold hex_string. simpl. by rewrite hex_byte.
Qed.

Lemma hex_string_is_hex bs :
  Forall is_byte bs →
  length (hex_string bs) = (2 * length bs)%nat ∧
  Forall is_hex_digit (hex_string bs).
Proof.
  induction 1 as [|b bs Hb _ [IH1 IH2]]; [done|].
  rewrite hex_string_cons by done. unfold is_byte in Hb. split.
  - simpl. rewrite IH1. lia.
  - repeat apply Forall_cons_2; [| |done];
      apply hex_digit_range; Z.div_mod_to_equations; lia.
Qed.

(** X11. [generateRoomId] writes two lowercase hexadecimal digits for
    every random byte: thirty-two characters for the sixteen bytes it
    draws. *)
Theorem generateRoomId_is_hex array :
  Forall is_byte array →
  length (generateRoomId array) = (2 * length array)%nat ∧
  Forall is_hex_digit (generateRoomId array).
Proof. apply hex_string_is_hex. Qed.

Lemma generateRoomId_is_hex_witness :
  length (generateRoomId (iv0 ++ [0; 255; 16; 9])) = 32%nat ∧
  Forall is_hex_digit (generateRoomId (iv0 ++ [0; 255; 16; 9])).
Proof.
  apply (generateRoomId_is_hex (iv0 ++ [0; 255; 16; 9])).
  apply Forall_app. split; [exact iv0_bytes|].
  repeat (apply Forall_cons_2; [unfold is_byte; lia|]). apply Forall_nil_2.
Defined.

(** X12. Different random bytes give different room identifiers. *)
Theorem generateRoomId_injective a b :
  Forall is_byte a → Forall is_byte b →
  generateRoomId a = generateRoomId b → a = b.
Proof.
  unfold generateRoomId. intros Ha. revert b.
  induction Ha as [|x a Hx _ IH]; intros b Hb.
  - destruct Hb as [|y b Hy _]; [done|]. by rewrite hex_string_cons.
  - destruct Hb as [|y b Hy Hb]; rewrite hex_string_cons by done; [done|].
    rewrite hex_string_cons by done. intros [= H1 H2 H3].
    unfold is_byte in *.
    apply hex_digit_inj in H1; [|Z.div_mod_to_equations; lia..].
    apply hex_digit_inj in H2; [|Z.div_mod_to_equations; lia..].
    f_equal; [Z.div_mod_to_equations; lia|by apply IH].
Qed.

Lemma generateRoomId_injective_witness : [1; 2] = [1; 2].
Proof.
  apply (generateRoomId_injective [1; 2] [1; 2]); try reflexivity;
    repeat (apply Forall_cons_2; [unfold is_byte; lia|]); apply Forall_nil_2.
Defined.

(** X13. [hashData] returns sixty-four lowercase hexadecimal digits when
    the digest has thirty-two bytes. *)
Theorem hashData_is_hex sha256 data :
  length (sha256 (TextEncoder_encode data)) = 32%nat →
  Forall is_byte (sha256 (TextEncoder_encode data)) →
  length (hashData sha256 data) = 64%nat ∧
  Forall is_hex_digit (hashData sha256 data).
Proof.
  intros Hlen Hb. unfold hashData.
  destruct (hex_string_is_hex _ Hb) as [H1 H2].
  rewrite H1, Hlen. done.
Qed.

Lemma hashData_is_hex_witness :
  length (hashData (λ _, replicate 32 171) [104; 105]) = 64%nat ∧
  Forall is_hex_digit (hashData (λ _, replicate 32 171) [104; 105]).
Proof.
  apply (hashData_is_hex (λ _, replicate 32 171) [104; 105]).
  - reflexivity.
  - apply Forall_replicate. unfold is_byte. lia.
Defined.

Section CryptoManager.

Context `{S : SubtleCrypto} `{E : Engine}.

(** X14. After [initializeKeys] the symmetric key is there exactly when
    both [generateKey] calls resolved: when the first one, for the ECDH
    pair, rejects, the AES key is never generated. *)
Theorem sharedKey_needs_both_keys ecdh aes k :
  sharedKey (initializeKeys ecdh aes new_CryptoManager) = Some k ↔
  is_Some ecdh ∧ aes = Some k.
Proof.
  unfold initializeKeys, new_CryptoManager.
  destruct ecdh as [kp|], aes as [k'|]; simpl; split;
    try (intros [[? [=]] ?]); try (intros [? [=]]); try done.
Qed.

Lemma encryptMessage_cases this iv M :
  encryptMessage this iv M = Normal M ∨
  ∃ k c, sharedKey this = Some k ∧
         aes_gcm_encrypt k iv (TextEncoder_encode M) = Some c ∧
         encryptMessage this iv M = Normal (base64_encode (iv ++ c)).
Proof.
  unfold encryptMessage. destruct (sharedKey this) as [k|]; [|by left].
  destruct (aes_gcm_encrypt k iv (TextEncoder_encode M)) as [c|] eqn:Hc;
    simpl; [|by left].
  unfold String_fromCharCode. case_decide; simpl; [|by left].
  unfold btoa. case_match; simpl; [|by left].
  right. by exists k, c.
Qed.

(** X15. [encryptMessage] never throws: it returns the message itself,
    or the base64 form of nonce and ciphertext when the key is there and the
    cipher accepted the message. *)
Theorem encryptMessage_never_throws this iv M :
  encryptMessage this iv M = Normal M ∨
  ∃ k c, sharedKey this = Some k ∧
         aes_gcm_encrypt k iv (TextEncoder_encode M) = Some c ∧
         encryptMessage this iv M = Normal (base64_encode (iv ++ c)).
Proof. apply encryptMessage_cases. Qed.

(** [base64_encode] is injective on bytes. *)
Lemma base64_encode_inj x y :
  Forall is_byte x → Forall is_byte y →
  base64_encode x = base64_encode y → x = y.
Proof.
  intros Hx Hy Heq.
  destruct (atob_base64_encode x Hx) as [_ H1].
  destruct (atob_base64_encode y Hy) as [_ H2].
  rewrite Heq in H1. congruence.
Qed.

(** X16. Two encryptions under different nonces give different transport
    strings, whatever the messages, when the cipher accepts both and the
    engine takes nonce and ciphertext as the arguments of one call. *)
Theorem different_nonces_different_transport `{!AesGcm S} this k iv iv' M M' c c' :
  sharedKey this = Some k →
  length iv = 12%nat → length iv' = 12%nat →
  Forall is_byte iv → Forall is_byte iv' → iv ≠ iv' →
  aes_gcm_encrypt k iv (TextEncoder_encode M) = Some c →
  aes_gcm_encrypt k iv' (TextEncoder_encode M') = Some c' →
  Z.of_nat (length (iv ++ c)) ≤ argument_limit →
  Z.of_nat (length (iv' ++ c')) ≤ argument_limit →
  encryptMessage this iv M = Normal (base64_encode (iv ++ c)) ∧
  encryptMessage this iv' M' = Normal (base64_encode (iv' ++ c')) ∧
  base64_encode (iv ++ c) ≠ base64_encode (iv' ++ c').
Proof.
  intros Hk Hl Hl' Hb Hb' Hne Hc Hc' Hlen Hlen'.
  pose proof (encrypt_bytes _ _ _ _ Hc) as Hbc.
  pose proof (encrypt_bytes _ _ _ _ Hc') as Hbc'.
  split_and!.
  - by apply (encryptMessage_transport this k).
  - by apply (encryptMessage_transport this k).
  - intros Heq. apply base64_encode_inj in Heq; [|by apply Forall_app..].
    apply (f_equal (take 12)) in Heq.
    rewrite !take_app_length' in Heq by done. done.
Qed.

(** X17. The sender's [encryptMessage] gives the base64 transport string
    (the cipher accepts the message, and the engine takes nonce and
    ciphertext as the arguments of one call); a manager whose key differs
    from the sender's, so that the cipher rejects the ciphertext, returns
    that transport string in place of the message. *)
Theorem other_key_shows_transport `{!AesGcm S} sender receiver k k' iv M c :
  sharedKey sender = Some k → sharedKey receiver = Some k' →
  length iv = 12%nat → Forall is_byte iv →
  aes_gcm_encrypt k iv (TextEncoder_encode M) = Some c →
  Z.of_nat (length (iv ++ c)) ≤ argument_limit →
  aes_gcm_decrypt k' iv c = None →
  encryptMessage sender iv M = Normal (base64_encode (iv ++ c)) ∧
  decryptMessage receiver (base64_encode (iv ++ c)) =
    Normal (base64_encode (iv ++ c)).
Proof.
  intros Hk Hk' Hl Hb Hc Hlen Hd.
  pose proof (encrypt_bytes _ _ _ _ Hc) as Hbc.
  split.
  - by apply (encryptMessage_transport sender k).
  - rewrite (decryptMessage_transport receiver k') by done. by rewrite Hd.
Qed.

(** X30. A message whose nonce and ciphertext are more than the engine
    takes as the arguments of one call is not encrypted: the spread in
    [String.fromCharCode(...combined)] throws, [encryptMessage] returns
    the message itself, and [sendMessage] writes it to the open socket as
    the chat content. *)
Theorem long_message_is_sent_unencrypted this k iv M c :
  sharedKey this = Some k →
  aes_gcm_encrypt k iv (TextEncoder_encode M) = Some c →
  argument_limit < Z.of_nat (length (iv ++ c)) →
  encryptMessage this iv M = Normal M ∧
  ∀ p sock fields,
    M ≠ [] → fields !! "wss" = Some (Voice.Socket sock) →
    Voice.socket_readyState p sock = Voice.OPEN →
    App.sendMessage this iv p M fields = Normal [(sock, M)].
Proof.
  intros Hk Hc Hlen.
  pose proof (encryptMessage_over_limit this k iv M c Hk Hc Hlen) as Henc.
  split; [done|]. intros p sock fields HM Hwss Hopen.
  unfold App.sendMessage. destruct M as [|u M']; [done|].
  rewrite Henc. simpl. unfold App.get. rewrite Hwss. simpl. rewrite Hopen.
  by rewrite bool_decide_true.
Qed.

End CryptoManager.

Lemma different_nonces_different_transport_witness :
  encryptMessage toy_manager iv0 [104; 105] =
    Normal (base64_encode (iv0 ++ [38; 104; 105])) ∧
  encryptMessage toy_manager (replicate 12 0) [104; 105] =
    Normal (base64_encode (replicate 12 0 ++ [216; 104; 105])) ∧
  base64_encode (iv0 ++ [38; 104; 105]) ≠
    base64_encode (replicate 12 0 ++ [216; 104; 105]).
Proof.
  apply (different_nonces_different_transport toy_manager 7 iv0
           (replicate 12 0) [104; 105] [104; 105]); try reflexivity.
  - exact iv0_bytes.
  - apply Forall_replicate. unfold is_byte. lia.
  - discriminate.
  - vm_compute. discriminate.
  - vm_compute. discriminate.
Defined.

Lemma other_key_shows_transport_witness :
  encryptMessage toy_manager iv0 [104; 105] =
    Normal (base64_encode (iv0 ++ [38; 104; 105])) ∧
  decryptMessage other_manager (base64_encode (iv0 ++ [38; 104; 105])) =
    Normal (base64_encode (iv0 ++ [38; 104; 105])).
Proof.
  apply (other_key_shows_transport toy_manager other_manager 7 8 iv0
           [104; 105] [38; 104; 105]); try reflexivity.
  - exact iv0_bytes.
  - vm_compute. discriminate.
Defined.

(** On an engine that takes fourteen arguments the text "hi", with its
    nonce and tag fifteen bytes, is sent as it is. *)
Lemma long_message_is_sent_unencrypted_witness :
  encryptMessage (E := small_engine) toy_manager iv0 [104; 105] =
    Normal [104; 105] ∧
  ∀ p sock fields,
    [104; 105] ≠ [] → fields !! "wss" = Some (Voice.Socket sock) →
    Voice.socket_readyState p sock = Voice.OPEN →
    App.sendMessage (E := small_engine) toy_manager iv0 p [104; 105] fields =
      Normal [(sock, [104; 105])].
Proof.
  apply (long_message_is_sent_unencrypted (E := small_engine) toy_manager 7
           iv0 [104; 105] [38; 104; 105]); reflexivity.
Defined.

End CryptoExtra.

Module VoiceExtra.

Import Js Crypto Voice JsSpec CryptoSpec VoiceSpec.

Section VoiceManager.

Context `{S : SubtleCrypto} `{E : Engine}.
Variable JSON_stringify : signal → list Z.
Variable JSON_parse : list Z → completion (option signal).

Local Abbreviation Eff := (@Eff S).

(** *** What a sequence of steps does, step by step *)

Lemma runs_emit e : runs id (λ _, [e]) (emit e).
Proof. by intros w. Qed.

Lemma runs_assign f : runs f (λ _, []) (assign f).
Proof. intros w. unfold assign. by rewrite app_nil_r. Qed.

Lemma runs_ret : runs id (λ _, []) (eff_ret tt).
Proof. intros w. unfold eff_ret. rewrite app_nil_r. by destruct w. Qed.

Lemma runs_seq f g f' g' (m k : Eff unit) :
  runs f g m → runs f' g' k →
  runs (f' ∘ f) (λ t, g t ++ g' (f t)) (eff_bind m (λ _, k)).
Proof.
  intros Hm Hk w. unfold eff_bind. rewrite Hm, Hk. simpl.
  by rewrite app_assoc.
Qed.

Lemma runs_ext f g f' g' (m : Eff unit) :
  (∀ t, f t = f' t) → (∀ t, g t = g' t) → runs f g m → runs f' g' m.
Proof. intros Hf Hg Hm w. by rewrite Hm, Hf, Hg. Qed.

Lemma runs_forEach {A} (l : list A) (f : A → Eff unit) (g : A → list effect) :
  (∀ x, runs id (λ _, g x) (f x)) →
  runs id (λ _, flat_map g l) (forEach l f).
Proof.
  intros Hf. induction l as [|x l IH]; simpl; [apply runs_ret|].
  eapply runs_ext; [| |apply (runs_seq _ _ _ _ _ _ (Hf x) IH)]; done.
Qed.

Lemma runs_guarded {A} (o : option A) (body : A → Eff unit)
    (g : A → list effect) :
  (∀ x, runs id (λ _, g x) (body x)) →
  runs id (λ _, from_option g [] o)
       (when (is_object o) (eff_bind (deref o) body)).
Proof.
  intros Hbody. destruct o as [x|]; simpl; [|apply runs_ret].
  intros w. unfold eff_bind, eff_ret. by rewrite Hbody.
Qed.

Lemma runs_release {A} (field : VoiceManager → option A)
    (set : option A → VoiceManager → VoiceManager) (body : A → Eff unit)
    (g : A → list effect) :
  (∀ t, field t = None → set None t = t) →
  (∀ x, runs id (λ _, g x) (body x)) →
  runs (set None) (λ t, from_option g [] (field t))
    (eff_bind (read field) (λ v,
       when (is_object v)
         (eff_bind (deref v) (λ x,
            eff_bind (body x) (λ _, assign (set None)))))).
Proof.
  intros Hset Hbody w. unfold eff_bind at 1. unfold read.
  destruct (field (this w)) as [x|] eqn:Hx; simpl.
  - unfold eff_bind, eff_ret. rewrite Hbody. by unfold assign.
  - unfold eff_ret. rewrite app_nil_r, Hset by done. by destruct w.
Qed.

Lemma runs_clear_timer :
  runs (λ t, if is_timer (callTimer t) then set_callTimer None t else t)
       (λ t, if is_timer (callTimer t)
             then from_option (λ n, [clear_interval n]) [] (callTimer t)
             else [])
       (eff_bind (read callTimer) (λ callTimer,
          when (is_timer callTimer)
            (eff_bind (deref callTimer) (λ timer,
               eff_bind (emit (clear_interval timer))
                        (λ _, assign (set_callTimer None)))))).
Proof.
  intros [t oic tr]. unfold eff_bind at 1. unfold read. simpl.
  destruct (callTimer t) as [[|n]|]; simpl; try done;
    unfold eff_ret; by rewrite app_nil_r.
Qed.

Lemma runs_stopCallTimer p :
  runs (λ t, if is_timer (callTimer t) then set_callTimer None t else t)
       (λ t, (if is_timer (callTimer t)
              then from_option (λ n, [clear_interval n]) [] (callTimer t)
              else []) ++
             (if getElementById p "callTimer"
              then [set_textContent "callTimer" "00:00"] else []))
       (stopCallTimer p).
Proof.
  unfold stopCallTimer.
  eapply runs_ext; [| |apply runs_seq; [apply runs_clear_timer|]].
  3:{ apply (runs_guarded (document_getElementById p "callTimer") _
               (λ el, [set_textContent el "00:00"])).
      intros el. apply runs_emit. }
  - done.
  - intros t. simpl. f_equal. unfold document_getElementById.
    by destruct (getElementById p "callTimer").
Qed.

Lemma flat_map_singleton {A B} (f : A → B) l : flat_map (λ x, [f x]) l = f <$> l.
Proof. induction l; simpl; by f_equal. Qed.

(** [endCall], effect by effect. *)
Lemma runs_endCall p : runs ended (endCall_effects p) (endCall p).
Proof.
  unfold endCall. eapply runs_ext; cycle 2.
  - eapply runs_seq.
    { apply (runs_release localStream set_localStream _
               (λ s, flat_map (λ track, [track_stop track; track_disable track])
                              (getTracks s))).
      - by intros [] [= ->].
      - intros stream. apply runs_forEach. intros track.
        eapply runs_ext; [| |apply runs_seq; apply runs_emit]; done. }
    eapply runs_seq.
    { apply (runs_release remoteStream set_remoteStream _
               (λ s, flat_map (λ track, [track_stop track]) (getTracks s))).
      - by intros [] [= ->].
      - intros stream. apply runs_forEach. intros track. apply runs_emit. }
    eapply runs_seq.
    { apply (runs_release dataChannel set_dataChannel _
               (λ c, [channel_close c])).
      - by intros [] [= ->].
      - intros channel. apply runs_emit. }
    eapply runs_seq.
    { apply (runs_release peerConnection set_peerConnection _
               (λ pc, [pc_close pc])).
      - by intros [] [= ->].
      - intros pc. apply runs_emit. }
    eapply runs_seq; [apply runs_assign|].
    eapply runs_seq; [apply runs_assign|].
    eapply runs_seq; [apply runs_stopCallTimer|].
    eapply runs_seq.
    { apply (runs_guarded (document_getElementById p "localVideo") _
               (λ el, [set_srcObject el None])).
      intros el. apply runs_emit. }
    eapply runs_seq.
    { apply (runs_guarded (document_getElementById p "remoteVideo") _
               (λ el, [set_srcObject el None])).
      intros el. apply runs_emit. }
    instantiate (1 := λ _, if has_gc p then [window_gc] else []).
    instantiate (1 := id).
    destruct (has_gc p); simpl; [apply runs_emit|apply runs_ret].
  - intros [ls rs pc dc ? ? ? ? ct ? ? ?]. unfold ended, is_timer.
    by destruct ct as [[|n]|]; compute.
  - intros [ls rs pc dc ? ? ? ? ct ? ? ?]. unfold endCall_effects.
    unfold document_getElementById. simpl.
    destruct ls as [s|], rs as [s'|], dc as [c|], pc as [pc|]; simpl;
      rewrite ?app_nil_r, <- ?app_assoc, ?flat_map_singleton;
      destruct ct as [[|n]|]; simpl;
      destruct (getElementById p "callTimer"),
               (getElementById p "localVideo"),
               (getElementById p "remoteVideo"); simpl; done.
Qed.

Lemma elem_of_flat_map_2 {A B} (g : A → list B) l x y :
  x ∈ l → y ∈ g x → y ∈ flat_map g l.
Proof.
  intros Hx Hy. induction l as [|z l IH]; [by apply elem_of_nil in Hx|].
  simpl. apply elem_of_app. apply elem_of_cons in Hx as [<-|Hx]; auto.
Qed.

Lemma sends_app tr tr' : sends (tr ++ tr') = sends tr ++ sends tr'.
Proof. apply omap_app. Qed.

Lemma sends_flat_map {A} (g : A → list effect) l :
  (∀ x, sends (g x) = []) → sends (flat_map g l) = [].
Proof.
  intros Hg. induction l as [|x l IH]; [done|].
  simpl. by rewrite sends_app, Hg, IH.
Qed.

Lemma app_both_nil {A} (l1 l2 : list A) : l1 = [] → l2 = [] → l1 ++ l2 = [].
Proof. by intros -> ->. Qed.

Lemma sends_endCall_effects p t : sends (endCall_effects p t) = [].
Proof.
  unfold endCall_effects. rewrite !sends_app.
  repeat (apply app_both_nil).
  - destruct (localStream t); [|reflexivity].
    apply sends_flat_map. reflexivity.
  - destruct (remoteStream t) as [s|]; [|reflexivity].
    rewrite <- flat_map_singleton. apply sends_flat_map. reflexivity.
  - destruct (dataChannel t); reflexivity.
  - destruct (peerConnection t); reflexivity.
  - destruct (callTimer t) as [[|n]|]; reflexivity.
  - destruct (getElementById p "callTimer"); reflexivity.
  - destruct (getElementById p "localVideo"); reflexivity.
  - destruct (getElementById p "remoteVideo"); reflexivity.
  - destruct (has_gc p); reflexivity.
Qed.

(** X18. [endCall] releases what the negotiator holds: every track of the
    local stream is stopped and disabled, every track of the remote stream
    is stopped, the data channel and the peer connection are closed and the
    interval timer is cleared; nothing is written to a socket. *)
Theorem endCall_releases_resources p w :
  (∀ s track, localStream (this w) = Some s → track ∈ getTracks s →
     track_stop track ∈ trace (endCall p w).2 ∧
     track_disable track ∈ trace (endCall p w).2) ∧
  (∀ s track, remoteStream (this w) = Some s → track ∈ getTracks s →
     track_stop track ∈ trace (endCall p w).2) ∧
  (∀ c, dataChannel (this w) = Some c →
     channel_close c ∈ trace (endCall p w).2) ∧
  (∀ pc, peerConnection (this w) = Some pc →
     pc_close pc ∈ trace (endCall p w).2) ∧
  (∀ n, callTimer (this w) = Some n → n ≠ 0 →
     clear_interval n ∈ trace (endCall p w).2) ∧
  sends (trace (endCall p w).2) = sends (trace w).
Proof.
  rewrite (runs_endCall p w). simpl. split_and!.
  - intros s track Hs Hin. unfold endCall_effects. rewrite Hs.
    rewrite !elem_of_app.
    split; right; left; apply (elem_of_flat_map_2 _ _ track); try done.
    + apply list_elem_of_here.
    + apply list_elem_of_further, list_elem_of_here.
  - intros s track Hs Hin. unfold endCall_effects. rewrite Hs.
    rewrite !elem_of_app. right. right. left.
    by apply list_elem_of_fmap_2.
  - intros c Hc. unfold endCall_effects. rewrite Hc.
    rewrite !elem_of_app. do 3 right. left. apply list_elem_of_here.
  - intros pc Hpc. unfold endCall_effects. rewrite Hpc.
    rewrite !elem_of_app. do 4 right. left. apply list_elem_of_here.
  - intros n Hn Hne. unfold endCall_effects. rewrite Hn.
    rewrite !elem_of_app. do 5 right. left.
    unfold is_timer. destruct n; [done|]. apply list_elem_of_here.
  - by rewrite sends_app, sends_endCall_effects, app_nil_r.
Qed.

Lemma forEach_add_track pc l w :
  forEach l (λ track, emit (add_track pc track)) w =
    (Normal tt, mkWorld (this w) (onicecandidate w)
                        (trace w ++ (add_track pc <$> l))).
Proof.
  rewrite (runs_forEach l _ (λ track, [add_track pc track])
             (λ track, runs_emit _) w).
  by rewrite flat_map_singleton.
Qed.

Lemma sends_add_track pc l : sends (add_track pc <$> l) = [].
Proof. rewrite <- flat_map_singleton. by apply sends_flat_map. Qed.

(** The preview of the local stream, when the call has video. *)
Lemma local_preview p video stream w :
  ∃ tr', sends tr' = [] ∧
    when video
      (when (is_object (document_getElementById p "localVideo"))
         (eff_bind (deref (document_getElementById p "localVideo"))
            (λ el, emit (set_srcObject el (Some (stream_id stream))))))
      w = (Normal tt, mkWorld (this w) (onicecandidate w) (trace w ++ tr')).
Proof.
  destruct w as [t oic tr]. destruct video; simpl.
  - unfold document_getElementById.
    destruct (getElementById p "localVideo"); simpl.
    + by exists [set_srcObject "localVideo" (Some (stream_id stream))].
    + exists []. by rewrite app_nil_r.
  - exists []. by rewrite app_nil_r.
Qed.

(** The world after a [startCall] in which every call succeeds. *)
Lemma startCall_success p isVideo sock w stream sdp :
  getUserMedia p = Normal stream → createOffer p = Normal sdp →
  setLocalDescription p = Normal tt → socket_readyState p sock = OPEN →
  getElementById p "callStatus" = true →
  ∃ tr',
    sends tr' =
      [(sock, encryptSignalingData JSON_stringify (this w) (getRandomValues p)
                (offer sdp (truthy (default_to (Bool false) isVideo))
                       (Date_now p)))] ∧
    startCall JSON_stringify p isVideo (Socket sock) w =
      (Normal tt,
       mkWorld
         (set_callTimer (Some (setInterval p))
            (set_callStartTime (Some (Date_now p))
               (set_isCallActive true
                  (set_dataChannel (Some (createDataChannel p))
                     (set_peerConnection (Some (new_RTCPeerConnection p))
                        (set_localStream (Some stream)
                           (set_isInitiator true (this w))))))))
         (<[new_RTCPeerConnection p := Socket sock]> (onicecandidate w))
         (trace w ++ tr')).
Proof.
  intros Hmedia Hoffer Hlocal Hopen Hstatus.
  destruct w as [t oic tr]. unfold startCall, eff_try.
  unfold eff_bind at 1. simpl. unfold eff_bind at 1. rewrite Hmedia. simpl.
  unfold eff_bind at 1. simpl. unfold eff_bind at 1.
  set (video := truthy (default_to (Bool false) isVideo)).
  match goal with |- context [when video ?b ?w'] =>
    destruct (local_preview p video stream w') as (tr1 & Htr1 & ->) end.
  simpl. unfold eff_bind at 1. simpl. unfold eff_bind at 1. simpl.
  unfold eff_bind at 1. simpl. unfold eff_bind at 1.
  rewrite forEach_add_track. simpl.
  unfold eff_bind at 1. simpl. unfold eff_bind at 1. rewrite Hoffer. simpl.
  unfold eff_bind at 1. rewrite Hlocal. simpl.
  unfold eff_bind at 1. simpl. unfold eff_bind at 1. simpl.
  unfold eff_bind at 1. unfold send_if_open. simpl. rewrite Hopen.
  rewrite bool_decide_true by done. simpl.
  unfold eff_bind at 1. simpl. unfold eff_bind at 1. simpl.
  unfold eff_bind at 1. unfold document_getElementById. rewrite Hstatus.
  simpl. rewrite <- !app_assoc. eexists. split; [|reflexivity].
  rewrite !sends_app, Htr1, sends_add_track. simpl.
  by destruct t.
Qed.

(** X19. [startCall] with an open socket, when the media, the offer and
    the local description all succeed, writes the offer to that socket and
    nothing else, holds the stream, the peer connection and the data
    channel, marks the call active, and installs an [onicecandidate] closure
    that captured the socket. *)
Theorem startCall_sends_the_offer p isVideo sock w stream sdp :
  getUserMedia p = Normal stream → createOffer p = Normal sdp →
  setLocalDescription p = Normal tt → socket_readyState p sock = OPEN →
  getElementById p "callStatus" = true →
  (startCall JSON_stringify p isVideo (Socket sock) w).1 = Normal tt ∧
  sends (trace (startCall JSON_stringify p isVideo (Socket sock) w).2) =
    sends (trace w) ++
    [(sock, encryptSignalingData JSON_stringify (this w) (getRandomValues p)
              (offer sdp (truthy (default_to (Bool false) isVideo))
                     (Date_now p)))] ∧
  isCallActive (this (startCall JSON_stringify p isVideo (Socket sock) w).2)
    = true ∧
  localStream (this (startCall JSON_stringify p isVideo (Socket sock) w).2)
    = Some stream ∧
  peerConnection (this (startCall JSON_stringify p isVideo (Socket sock) w).2)
    = Some (new_RTCPeerConnection p) ∧
  dataChannel (this (startCall JSON_stringify p isVideo (Socket sock) w).2)
    = Some (createDataChannel p) ∧
  onicecandidate (startCall JSON_stringify p isVideo (Socket sock) w).2
    !! new_RTCPeerConnection p = Some (Socket sock).
Proof.
  intros Hmedia Hoffer Hlocal Hopen Hstatus.
  destruct (startCall_success p isVideo sock w stream sdp)
    as (tr' & Hsends & ->); try done.
  simpl. rewrite sends_app, Hsends, lookup_insert_eq. done.
Qed.

(** X20. When the camera or microphone is refused, [startCall] creates no
    peer connection, writes to no socket and leaves the call inactive; it
    shows "Call Failed" and schedules the return to the chat after three
    seconds, and it throws when the page has no [callStatus] element. *)
Theorem startCall_media_failure p isVideo ws w e :
  getUserMedia p = Throw e →
  this (startCall JSON_stringify p isVideo ws w).2 =
    set_isInitiator true (this w) ∧
  onicecandidate (startCall JSON_stringify p isVideo ws w).2 =
    onicecandidate w ∧
  (getElementById p "callStatus" = true →
   (startCall JSON_stringify p isVideo ws w).1 = Normal tt ∧
   trace (startCall JSON_stringify p isVideo ws w).2 =
     trace w ++ [set_textContent "callStatus" "Call Failed"; set_timeout 3000]) ∧
  (getElementById p "callStatus" = false →
   (startCall JSON_stringify p isVideo ws w).1 = Throw TypeError ∧
   trace (startCall JSON_stringify p isVideo ws w).2 = trace w).
Proof.
  intros Hmedia. destruct w as [t oic tr]. unfold startCall, eff_try.
  unfold eff_bind at 1. simpl. unfold eff_bind at 1. rewrite Hmedia. simpl.
  unfold handleCallError, document_getElementById.
  destruct (getElementById p "callStatus"); simpl.
  - split_and!; try done. intros _. by rewrite <- app_assoc.
  - split_and!; done.
Qed.

(** *** Inbound signaling *)

(** X21. What [encryptSignalingData] made, [decryptSignalingData] of the
    same negotiator reads back, when the key is there, the cipher accepted
    the payload, the engine takes nonce and ciphertext as the arguments of
    one call, and [JSON.parse] inverts [JSON.stringify] on the payload. *)
Theorem signaling_round_trip `{!AesGcm S} t k iv d c :
  encryptionKey t = Some k → length iv = 12 → Forall is_byte iv →
  well_formed (JSON_stringify d) = true →
  head (JSON_stringify d) ≠ Some 0xFEFF%Z →
  JSON_parse (JSON_stringify d) = Normal (Some d) →
  aes_gcm_encrypt k iv (TextEncoder_encode (JSON_stringify d)) = Some c →
  (Z.of_nat (length (iv ++ c)) ≤ argument_limit)%Z →
  encryptSignalingData JSON_stringify t iv d =
    Encrypted (base64_encode (iv ++ c)) ∧
  decryptSignalingData JSON_parse t (Encrypted (base64_encode (iv ++ c))) =
    Data (Plain d).
Proof.
  intros Hk Hl Hb Hwf Hbom Hparse Hc Hlen.
  pose proof (encrypt_bytes _ _ _ _ Hc) as Hbc.
  destruct (atob_base64_encode (iv ++ c)) as [Hbtoa Hatob];
    [by apply Forall_app|].
  split.
  - unfold encryptSignalingData. rewrite Hk, Hc. simpl.
    unfold String_fromCharCode. rewrite decide_True by done. simpl.
    by rewrite Hbtoa.
  - unfold decryptSignalingData. rewrite Hk, Hatob. simpl.
    unfold char_codes. rewrite take_app_length', drop_app_length' by done.
    rewrite (decrypt_encrypt _ _ _ _ Hc). simpl.
    by rewrite TextDecoder_TextEncoder, Hparse.
Qed.

(** X22. A signal that arrives as a plain object, not as a transport
    string, is taken as it is by every negotiator, with or without a key:
    [atob] throws on an object and the [catch] returns the object. *)
Theorem plain_signal_is_accepted t d :
  decryptSignalingData JSON_parse t (Plain d) = Data (Plain d) ∧
  (encryptionKey t = None →
   ∀ iv, encryptSignalingData JSON_stringify t iv d = Plain d).
Proof.
  split.
  - unfold decryptSignalingData. by destruct (encryptionKey t).
  - intros Hk iv. unfold encryptSignalingData. by rewrite Hk.
Qed.

(** X23. [handleEncryptedSignaling] never throws, and a payload that does
    not decrypt to a signal changes nothing in the negotiator. *)
Theorem undecryptable_signaling_is_dropped p ap s ws w :
  (∀ data, (handleEncryptedSignaling JSON_stringify JSON_parse p ap data ws
              w).1 = Normal tt) ∧
  ((∀ d, decryptSignalingData JSON_parse (this w) (Encrypted s)
           ≠ Data (Plain d)) →
   handleEncryptedSignaling JSON_stringify JSON_parse p ap (Encrypted s) ws w
     = (Normal tt, w)) ∧
  (encryptionKey (this w) = None →
   ∀ d, decryptSignalingData JSON_parse (this w) (Encrypted s)
          ≠ Data (Plain d)) ∧
  (∀ e, atob s = Throw e →
   ∀ d, decryptSignalingData JSON_parse (this w) (Encrypted s)
          ≠ Data (Plain d)).
Proof.
  split_and!.
  - intros data. unfold handleEncryptedSignaling, eff_try.
    by destruct (eff_bind _ _ w) as [[[]|e] w'].
  - intros Hnot. unfold handleEncryptedSignaling, eff_try, eff_bind.
    simpl. destruct (decryptSignalingData _ _ _) as [[s'|d]|]; try done.
    by destruct (Hnot d).
  - intros Hk d. unfold decryptSignalingData. by rewrite Hk.
  - intros e He d. unfold decryptSignalingData.
    destruct (encryptionKey (this w)); [|done]. by rewrite He.
Qed.

(** X24. An answer or a candidate that arrives while there is no peer
    connection is dropped: nothing changes and nothing is thrown. *)
Theorem signal_without_peer_connection_is_dropped p ap data ws w d :
  peerConnection (this w) = None →
  decryptSignalingData JSON_parse (this w) data = Data (Plain d) →
  (∀ sdp isVideo ts, d ≠ offer sdp isVideo ts) →
  handleEncryptedSignaling JSON_stringify JSON_parse p ap data ws w
    = (Normal tt, w).
Proof.
  intros Hpc Hd Hno. unfold handleEncryptedSignaling, eff_try, eff_bind.
  simpl. rewrite Hd. destruct d as [sdp isVideo ts|sdp ts|candidate ts].
  - by destruct (Hno sdp isVideo ts).
  - unfold handleAnswer, eff_bind, read. rewrite Hpc. by destruct w.
  - unfold handleIceCandidate, eff_bind, read. rewrite Hpc. by destruct w.
Qed.

(** The world after an offer was handled with every call succeeding. *)
Lemma handleOffer_success p ap isVideo sock w stream sdp :
  peerConnection (this w) = None →
  getUserMedia p = Normal stream → setRemoteDescription ap = Normal tt →
  createAnswer ap = Normal sdp → setLocalDescription p = Normal tt →
  socket_readyState p sock = OPEN →
  ∃ tr',
    sends tr' =
      [(sock, encryptSignalingData JSON_stringify (this w) (getRandomValues p)
                (answer sdp (Date_now p)))] ∧
    handleOffer JSON_stringify p ap isVideo (Socket sock) w =
      (Normal tt,
       mkWorld
         (set_callTimer (Some (setInterval p))
            (set_callStartTime (Some (Date_now p))
               (set_isCallActive true
                  (set_localStream (Some stream)
                     (set_peerConnection (Some (new_RTCPeerConnection p))
                        (this w))))))
         (<[new_RTCPeerConnection p := Socket sock]> (onicecandidate w))
         (trace w ++ tr')).
Proof.
  intros Hpc Hmedia Hremote Hanswer Hlocal Hopen.
  destruct w as [t oic tr]. simpl in Hpc. unfold handleOffer.
  unfold eff_bind at 1. unfold eff_bind at 1. unfold read at 1. simpl.
  rewrite Hpc. simpl.
  unfold eff_bind at 1. simpl. unfold eff_bind at 1. rewrite Hmedia. simpl.
  unfold eff_bind at 1. simpl. unfold eff_bind at 1.
  match goal with |- context [when isVideo ?b ?w'] =>
    destruct (local_preview p isVideo stream w') as (tr1 & Htr1 & ->) end.
  simpl. unfold eff_bind at 1. rewrite forEach_add_track. simpl.
  unfold eff_bind at 1. simpl. unfold eff_bind at 1. simpl.
  unfold eff_bind at 1. rewrite Hremote. simpl.
  unfold eff_bind at 1. rewrite Hanswer. simpl.
  unfold eff_bind at 1. rewrite Hlocal. simpl.
  unfold eff_bind at 1. simpl. unfold eff_bind at 1. simpl.
  unfold eff_bind at 1. unfold send_if_open. simpl. rewrite Hopen.
  rewrite bool_decide_true by done. simpl.
  unfold eff_bind at 1. simpl.
  rewrite <- !app_assoc. eexists. split; [|reflexivity].
  rewrite !sends_app, Htr1, sends_add_track. simpl.
  by destruct t.
Qed.

(** X25. An offer that arrives while there is no peer connection, on an
    open socket and with every platform call succeeding, is answered: the
    answer is written to that socket and nothing else is, the negotiator
    holds a new peer connection and the local stream, the call is active and
    the [onicecandidate] closure captured the socket. *)
Theorem offer_is_answered p ap data sock w stream sdp sdp' isVideo ts :
  peerConnection (this w) = None →
  decryptSignalingData JSON_parse (this w) data
    = Data (Plain (offer sdp' isVideo ts)) →
  getUserMedia p = Normal stream → setRemoteDescription ap = Normal tt →
  createAnswer ap = Normal sdp → setLocalDescription p = Normal tt →
  socket_readyState p sock = OPEN →
  sends (trace (handleEncryptedSignaling JSON_stringify JSON_parse p ap data
                  (Socket sock) w).2) =
    sends (trace w) ++
    [(sock, encryptSignalingData JSON_stringify (this w) (getRandomValues p)
              (answer sdp (Date_now p)))] ∧
  isCallActive (this (handleEncryptedSignaling JSON_stringify JSON_parse p ap
                        data (Socket sock) w).2) = true ∧
  peerConnection (this (handleEncryptedSignaling JSON_stringify JSON_parse p
                          ap data (Socket sock) w).2)
    = Some (new_RTCPeerConnection p) ∧
  localStream (this (handleEncryptedSignaling JSON_stringify JSON_parse p ap
                       data (Socket sock) w).2) = Some stream ∧
  onicecandidate (handleEncryptedSignaling JSON_stringify JSON_parse p ap data
                    (Socket sock) w).2 !! new_RTCPeerConnection p
    = Some (Socket sock).
Proof.
  intros Hpc Hd Hmedia Hremote Hanswer Hlocal Hopen.
  destruct (handleOffer_success p ap isVideo sock w stream sdp)
    as (tr' & Hsends & Hrun); try done.
  assert (handleEncryptedSignaling JSON_stringify JSON_parse p ap data
            (Socket sock) w =
          handleOffer JSON_stringify p ap isVideo (Socket sock) w) as ->.
  { unfold handleEncryptedSignaling, eff_try. unfold eff_bind at 1.
    unfold read. cbn [fst snd id]. by rewrite Hd, Hrun. }
  rewrite Hrun. simpl.
  rewrite sends_app, Hsends, lookup_insert_eq. done.
Qed.

(** X26. When the camera or microphone is refused while an offer is being
    handled, nothing is thrown and nothing is written to a socket, but the
    peer connection made for the offer stays in the negotiator, with no
    stream, no handler and no active call. *)
Theorem offer_media_failure p ap data ws w sdp' isVideo ts e :
  peerConnection (this w) = None →
  decryptSignalingData JSON_parse (this w) data
    = Data (Plain (offer sdp' isVideo ts)) →
  getUserMedia p = Throw e →
  handleEncryptedSignaling JSON_stringify JSON_parse p ap data ws w =
    (Normal tt,
     mkWorld (set_peerConnection (Some (new_RTCPeerConnection p)) (this w))
             (onicecandidate w) (trace w)).
Proof.
  intros Hpc Hd Hmedia. destruct w as [t oic tr]. simpl in *.
  unfold handleEncryptedSignaling, eff_try. unfold eff_bind at 1.
  unfold read. simpl. rewrite Hd. unfold handleOffer.
  unfold eff_bind at 1. unfold eff_bind at 1. unfold read at 1. simpl.
  rewrite Hpc. simpl.
  unfold eff_bind at 1. simpl. unfold eff_bind at 1. rewrite Hmedia. done.
Qed.

End VoiceManager.

(** A call started on the open socket 3, on a platform where every call
    succeeds. *)
Lemma startCall_sends_the_offer_witness :
  sends (trace (startCall (S := toy_subtle) (λ _, []) platform0 (Bool false)
                  (Socket 3) world0).2) =
    sends (trace world0) ++
    [(3, encryptSignalingData (λ _, []) (this world0)
           (getRandomValues platform0)
           (offer "sdp" (truthy (default_to (Bool false) (Bool false)))
                  (Date_now platform0)))].
Proof.
  exact (proj1 (proj2
    (startCall_sends_the_offer (S := toy_subtle) (λ _, []) platform0
       (Bool false) 3 world0 (mkStream 0 [0; 1]) "sdp"
       eq_refl eq_refl eq_refl eq_refl eq_refl))).
Defined.

(** The same call on a platform that refuses the microphone. *)
Lemma startCall_media_failure_witness :
  this (startCall (S := toy_subtle) (λ _, [])
          (mkPlatform (λ _, true) false (λ _, 1) (Throw NotAllowedError) 5 6
                      (Normal "sdp") (Normal tt) 9 iv0 0)
          (Bool false) (Socket 3) world0).2 =
    set_isInitiator true (this world0).
Proof.
  exact (proj1
    (startCall_media_failure (S := toy_subtle) (λ _, [])
       (mkPlatform (λ _, true) false (λ _, 1) (Throw NotAllowedError) 5 6
                   (Normal "sdp") (Normal tt) 9 iv0 0)
       (Bool false) (Socket 3) world0 NotAllowedError eq_refl)).
Defined.

(** An answer crosses the signaling channel of a negotiator with key 7. *)
Lemma signaling_round_trip_witness :
  encryptSignalingData (S := toy_subtle) (λ _, [123; 125]%Z)
    (set_encryptionKey (S := toy_subtle) (Some 7%Z) new_VoiceManager) iv0 (answer "sdp" 0) =
    Encrypted (base64_encode (iv0 ++ [77; 123; 125]%Z)) ∧
  decryptSignalingData (λ _, Normal (Some (answer "sdp" 0)))
    (set_encryptionKey (S := toy_subtle) (Some 7%Z) new_VoiceManager)
    (Encrypted (base64_encode (iv0 ++ [77; 123; 125]%Z))) =
    Data (Plain (answer "sdp" 0)).
Proof.
  apply (signaling_round_trip (S := toy_subtle) (λ _, [123; 125]%Z)
           (λ _, Normal (Some (answer "sdp" 0)))
           (set_encryptionKey (S := toy_subtle) (Some 7%Z) new_VoiceManager) 7%Z iv0
           (answer "sdp" 0) [77; 123; 125]%Z); try reflexivity.
  - exact iv0_bytes.
  - discriminate.
  - vm_compute. discriminate.
Defined.

(** A candidate arrives at a negotiator that has no peer connection. *)
Lemma signal_without_peer_connection_is_dropped_witness :
  handleEncryptedSignaling (S := toy_subtle) (λ _, [])
    (λ _, Normal None) platform0 answers (Plain (ice_candidate "c" 0))
    (Socket 3) world0 = (Normal tt, world0).
Proof.
  apply (signal_without_peer_connection_is_dropped (S := toy_subtle)
           (λ _, []) (λ _, Normal None) platform0 answers
           (Plain (ice_candidate "c" 0)) (Socket 3) world0
           (ice_candidate "c" 0)); try reflexivity.
  discriminate.
Defined.

(** An offer arrives as a plain object on the open socket 3. *)
Lemma offer_is_answered_witness :
  sends (trace (handleEncryptedSignaling (S := toy_subtle) (λ _, [])
                  (λ _, Normal None) platform0 answers
                  (Plain (offer "sdp" false 0)) (Socket 3) world0).2) =
    sends (trace world0) ++
    [(3, encryptSignalingData (λ _, []) (this world0)
           (getRandomValues platform0) (answer "sdp2" (Date_now platform0)))].
Proof.
  exact (proj1
    (offer_is_answered (S := toy_subtle) (λ _, []) (λ _, Normal None)
       platform0 answers (Plain (offer "sdp" false 0)) 3 world0
       (mkStream 0 [0; 1]) "sdp2" "sdp" false 0
       eq_refl eq_refl eq_refl eq_refl eq_refl eq_refl eq_refl)).
Defined.

(** The same offer on a platform that refuses the microphone. *)
Lemma offer_media_failure_witness :
  handleEncryptedSignaling (S := toy_subtle) (λ _, []) (λ _, Normal None)
    (mkPlatform (λ _, true) false (λ _, 1) (Throw NotAllowedError) 5 6
                (Normal "sdp") (Normal tt) 9 iv0 0)
    answers (Plain (offer "sdp" false 0)) (Socket 3) world0 =
    (Normal tt,
     mkWorld (set_peerConnection (Some 5) (this world0))
             (onicecandidate world0) (trace world0)).
Proof.
  exact (offer_media_failure (S := toy_subtle) (λ _, []) (λ _, Normal None)
           (mkPlatform (λ _, true) false (λ _, 1) (Throw NotAllowedError) 5 6
                       (Normal "sdp") (Normal tt) 9 iv0 0)
           answers (Plain (offer "sdp" false 0)) (Socket 3) world0
           "sdp" false 0 NotAllowedError eq_refl eq_refl eq_refl).
Defined.

End VoiceExtra.

Module AppExtra.

Import Js Crypto Voice JsSpec CryptoSpec VoiceSpec AppSpec CryptoExtra VoiceExtra.

Lemma wss_not_an_element : "wss" ∉ App.elements.*1.
Proof.
  unfold App.elements. cbn [fmap list_fmap fst]. intros H.
  repeat (apply elem_of_cons in H as [H|H]; [discriminate|]).
  by apply elem_of_nil in H.
Qed.

Lemma reachable_wss this :
  App.reachable this → ∃ sock, this !! "wss" = Some (Socket sock).
Proof.
  induction 1 as [p cm vm sock|S E stringify p message this w _ [s IH]
                  |sock this _ _|timer this _ [s IH]|this _ [s IH]
                  |this _ [s IH]].
  - exists sock. unfold App.constructor, App.connectWebSocket.
    apply lookup_insert_eq.
  - exists s. destruct message; simpl; try done; by rewrite lookup_insert_ne.
  - exists sock. unfold App.connectWebSocket. apply lookup_insert_eq.
  - exists s. unfold App.handleTyping.
    rewrite lookup_insert_ne by done. case_match; [done|].
    by rewrite lookup_insert_ne.
  - exists s. unfold App.typing_timeout. by rewrite lookup_insert_ne.
  - exists s. unfold App.leaveGroup. by rewrite lookup_insert_ne.
Qed.

(** X27. From its constructor on, the application holds a socket in
    [this.wss]. *)
Theorem wss_is_always_a_socket this :
  App.reachable this → ∃ sock, this !! "wss" = Some (Socket sock).
Proof. apply reachable_wss. Qed.

Lemma wss_is_always_a_socket_witness :
  ∃ sock, App.constructor platform0 0 1 2 !! "wss" = Some (Socket sock).
Proof.
  apply (wss_is_always_a_socket (App.constructor platform0 0 1 2)).
  apply App.reach_constructor.
Defined.

Section SecureChatApp.

Context `{S : SubtleCrypto} `{E : Engine}.
Variable JSON_stringify : signal → list Z.
Variable JSON_parse : list Z → completion (option signal).

(** X28. [sendMessage] never throws, and what it writes is settled by
    the text and by the state of the socket in [this.wss]: nothing for an
    empty text, nothing while that socket is not open, and otherwise one
    chat message to that socket, whose content is what [encryptMessage]
    returned for the text. *)
Theorem sendMessage_writes_when_open cm iv p M this :
  App.reachable this →
  ∃ sock content,
    this !! "wss" = Some (Socket sock) ∧
    encryptMessage cm iv M = Normal content ∧
    (M = [] → App.sendMessage cm iv p M this = Normal []) ∧
    (socket_readyState p sock ≠ OPEN →
     App.sendMessage cm iv p M this = Normal []) ∧
    (M ≠ [] → socket_readyState p sock = OPEN →
     App.sendMessage cm iv p M this = Normal [(sock, content)]).
Proof.
  intros [sock Hwss]%reachable_wss. exists sock.
  assert (∃ content, encryptMessage cm iv M = Normal content) as [content HM].
  { destruct (encryptMessage_cases cm iv M) as [HM|(k & c & _ & _ & HM)];
      by eexists. }
  exists content. split_and!; [done..| | |].
  - by intros ->.
  - intros Hopen. unfold App.sendMessage. destruct M as [|u M']; [done|].
    rewrite HM. simpl. unfold App.get. rewrite Hwss. simpl.
    by rewrite bool_decide_false by congruence.
  - intros HM' Hopen. unfold App.sendMessage. destruct M as [|u M']; [done|].
    rewrite HM. simpl. unfold App.get. rewrite Hwss. simpl.
    by rewrite bool_decide_true by congruence.
Qed.

(** X29. On the answering side the negotiator is given [this.wss], the
    real socket: an offer that arrives while that socket is open, with no
    peer connection yet and every platform call succeeding, is answered on
    it. *)
Theorem inbound_offer_is_answered_on_wss p ap data this w stream sdp sdp'
    isVideo ts sock :
  this !! "wss" = Some (Socket sock) →
  socket_readyState p sock = OPEN →
  peerConnection (Voice.this w) = None →
  decryptSignalingData JSON_parse (Voice.this w) data
    = Data (Plain (offer sdp' isVideo ts)) →
  getUserMedia p = Normal stream → setRemoteDescription ap = Normal tt →
  createAnswer ap = Normal sdp → setLocalDescription p = Normal tt →
  sends (trace (App.handleSignaling JSON_stringify JSON_parse p ap data this
                  w).2) =
    sends (trace w) ++
    [(sock, encryptSignalingData JSON_stringify (Voice.this w)
              (getRandomValues p) (answer sdp (Date_now p)))].
Proof.
  intros Hwss Hopen Hpc Hd Hmedia Hremote Hanswer Hlocal.
  unfold App.handleSignaling, App.get. rewrite Hwss. simpl.
  destruct (handleOffer_success JSON_stringify p ap isVideo sock w stream sdp)
    as (tr' & Hsends & Hrun); try done.
  assert (handleEncryptedSignaling JSON_stringify JSON_parse p ap data
            (Socket sock) w =
          handleOffer JSON_stringify p ap isVideo (Socket sock) w) as ->.
  { unfold handleEncryptedSignaling, eff_try. unfold eff_bind at 1.
    unfold read. cbn [fst snd id]. by rewrite Hd, Hrun. }
  rewrite Hrun. simpl. by rewrite sends_app, Hsends.
Qed.

End SecureChatApp.

(** The text "hi" on the application as its constructor leaves it. *)
Lemma sendMessage_writes_when_open_witness :
  ∃ sock content,
    App.constructor platform0 0 1 2 !! "wss" = Some (Socket sock) ∧
    encryptMessage toy_manager iv0 [104; 105]%Z = Normal content ∧
    ([104; 105]%Z = [] →
     App.sendMessage toy_manager iv0 platform0 [104; 105]%Z
       (App.constructor platform0 0 1 2) = Normal []) ∧
    (socket_readyState platform0 sock ≠ OPEN →
     App.sendMessage toy_manager iv0 platform0 [104; 105]%Z
       (App.constructor platform0 0 1 2) = Normal []) ∧
    ([104; 105]%Z ≠ [] → socket_readyState platform0 sock = OPEN →
     App.sendMessage toy_manager iv0 platform0 [104; 105]%Z
       (App.constructor platform0 0 1 2) = Normal [(sock, content)]).
Proof.
  apply (sendMessage_writes_when_open (S := toy_subtle) toy_manager iv0
           platform0 [104; 105]%Z (App.constructor platform0 0 1 2)).
  apply App.reach_constructor.
Defined.

Lemma inbound_offer_is_answered_on_wss_witness :
  sends (trace (App.handleSignaling (S := toy_subtle) (λ _, [])
                  (λ _, Normal None) platform0 answers
                  (Plain (offer "sdp" false 0))
                  (App.constructor platform0 0 1 2) world0).2) =
    sends (trace world0) ++
    [(2, encryptSignalingData (λ _, []) (this world0)
           (getRandomValues platform0) (answer "sdp2" (Date_now platform0)))].
Proof.
  apply (inbound_offer_is_answered_on_wss (S := toy_subtle) (λ _, [])
           (λ _, Normal None) platform0 answers (Plain (offer "sdp" false 0))
           (App.constructor platform0 0 1 2) world0 (mkStream 0 [0; 1])
           "sdp2" "sdp" false 0 2); reflexivity.
Defined.

End AppExtra.
